(** * whispertype: a shallow embedding of [main.go]

    The dictation pipeline of [main.go] is embedded function by function:
    frame classification ([isSilent]), the WAV encoder ([writeWavToBuffer]),
    the backend client ([transcribeChunk]), the overlapping splitter
    ([transcribeInChunks]), the audio channel ([readNextChunk]) and the
    segmentation loop ([run], [finalizeTranscript]).

    Conventions.
    - Go's fixed-width integers are [Z] with the wrap-around written out
      ([int16], [int64], [uint16], [uint32]).
    - A Go [string] holding text is a list of code points ([gostring]); the
      decoder of [encoding/json] only ever yields valid UTF-8, so nothing is
      lost for the texts that reach [strings.TrimSpace].
    - A run-time panic is a result of its own ([Panic]), never a default value.
    - The collaborators that are not Go code of this repository (the HTTP
      backend, the X11 key injection, standard output, the clock, the
      producer goroutine) appear as inputs of the step function ([tick]) and
      as entries of an event trace ([event]). *)

From Stdlib Require Import String Ascii ZArith List Lia Bool.
Import ListNotations.
Open Scope Z_scope.

(** ** Machine integers *)

Module GoInt.

Definition uint16 (z : Z) : Z := z mod 2 ^ 16.
Definition uint32 (z : Z) : Z := z mod 2 ^ 32.
Definition int16 (z : Z) : Z := (z + 2 ^ 15) mod 2 ^ 16 - 2 ^ 15.
Definition int64 (z : Z) : Z := (z + 2 ^ 63) mod 2 ^ 64 - 2 ^ 63.

Definition is_int16 (z : Z) : Prop := - 2 ^ 15 <= z < 2 ^ 15.
Definition is_int64 (z : Z) : Prop := - 2 ^ 63 <= z < 2 ^ 63.

End GoInt.
Import GoInt.

(** ** Results of Go code that can panic *)

Inductive panic : Type :=
| DivideByZero.

Inductive exec (A : Type) : Type :=
| Val (a : A)
| Panic (p : panic).
Arguments Val {A} a.
Arguments Panic {A} p.

(** ** Audio configuration constants (main.go, lines 28-34 and 55-59) *)

Definition sampleRate : Z := 16000.
Definition channels : Z := 1.
(** Durations are nanoseconds, as in Go's [time.Duration]. *)
Definition millisecond : Z := 1000000.
Definition second : Z := 1000 * millisecond.
Definition recordTimeout : Z := 1 * second.
Definition silenceDuration : Z := 300 * millisecond.
Definition energyThreshold : Z := 80.
Definition minChunkDuration : Z := 1 * second.
Definition chunkOverlap : Z := 500 * millisecond.

(** ** Frame classification: [isSilent] (main.go, lines 425-437) *)

(** The loop body of [isSilent]: [if sample < 0 { sample = -sample }] is a
    negation in int16, then [sum += int64(sample)] is an addition in int64. *)
Definition abs_sample (sample : Z) : Z :=
  if sample <? 0 then int16 (- sample) else sample.

Definition sum_step (sum sample : Z) : Z := int64 (sum + abs_sample sample).

Definition sum_samples (data : list Z) : Z := fold_left sum_step data 0.

(** [sum / int64(len(data))]: Go's integer division truncates toward zero and
    panics on a zero divisor. *)
Definition go_div64 (a b : Z) : exec Z :=
  if b =? 0 then Panic DivideByZero else Val (int64 (Z.quot a b)).

Definition isSilent (data : list Z) (threshold : Z) : exec bool :=
  let sum := sum_samples data in
  match go_div64 sum (int64 (Z.of_nat (length data))) with
  | Panic p => Panic p
  | Val avg => Val (avg <? int64 threshold)
  end.

(** The quantity the specification calls energy: the mean of the absolute
    sample values, as a mathematical quantity. [mean_abs_lt data t] says that
    this mean is strictly below [t]; for a non-empty frame the comparison of
    the rational [sum / n] with [t] is the comparison of [sum] with [t * n]. *)
Definition sum_abs (data : list Z) : Z :=
  fold_right (fun s acc => Z.abs s + acc) 0 data.

Definition mean_abs_lt (data : list Z) (t : Z) : Prop :=
  sum_abs data < t * Z.of_nat (length data).

(** Samples other than the most negative one. *)
Definition symmetric_sample (s : Z) : Prop := - 2 ^ 15 < s < 2 ^ 15.

(** ** Bytes and little-endian encoding ([encoding/binary]) *)

(** A byte is a [Z] in [0, 256).

    [binary.Write(w, binary.LittleEndian, v)] for a 16-bit and a 32-bit
    value; an [int16] is written as the [uint16] with the same bits. *)
Definition le16 (v : Z) : list Z :=
  [uint16 v mod 256; uint16 v / 256].

Definition le32 (v : Z) : list Z :=
  [uint32 v mod 256; uint32 v / 2 ^ 8 mod 256;
   uint32 v / 2 ^ 16 mod 256; uint32 v / 2 ^ 24].

(** [binary.LittleEndian.Uint16] and [Uint32]. *)
Definition Uint16 (b0 b1 : Z) : Z := b0 + 2 ^ 8 * b1.
Definition Uint32 (b0 b1 b2 b3 : Z) : Z :=
  b0 + 2 ^ 8 * b1 + 2 ^ 16 * b2 + 2 ^ 24 * b3.

(** [[]byte("RIFF")] and the like: the bytes of an ASCII literal. *)
Definition bytes_of (s : string) : list Z :=
  map (fun a => Z.of_N (N_of_ascii a)) (list_ascii_of_string s).

(** ** The WAV encoder: [writeWavToBuffer] (main.go, lines 533-567) *)

Definition bitsPerSample : Z := 16.

(** The first loop: every sample goes to [dataBuf] in little-endian order. *)
Definition write_samples (samples : list Z) : list Z :=
  flat_map le16 samples.

(** The buffer is a [bytes.Buffer]: writing appends. Every write of the
    function is to a [bytes.Buffer] and of a fixed-size value, so that the
    error result is always [nil]; the function is modelled by the content of
    [buffer] when it returns. [int] is 64 bits wide. *)
Definition writeWavToBuffer (buffer : list Z) (samples : list Z)
    (sampleRate channels : Z) : list Z :=
  let byteRate :=
    uint32 (int64 (int64 (sampleRate * channels) * (bitsPerSample / 8))) in
  let blockAlign := uint16 (int64 (channels * (bitsPerSample / 8))) in
  let dataBuf := write_samples samples in
  let dataSize := uint32 (Z.of_nat (length dataBuf)) in
  buffer
    ++ bytes_of "RIFF"
    ++ le32 (uint32 (36 + dataSize))
    ++ bytes_of "WAVE"
    ++ bytes_of "fmt "
    ++ le32 (uint32 16)
    ++ le16 (uint16 1)
    ++ le16 (uint16 channels)
    ++ le32 (uint32 sampleRate)
    ++ le32 (uint32 byteRate)
    ++ le16 blockAlign
    ++ le16 (uint16 bitsPerSample)
    ++ bytes_of "data"
    ++ le32 (uint32 dataSize)
    ++ dataBuf.

(** *** A reader of the canonical 44-byte header

    The repository has no WAV reader; this one is the reference against
    which the encoder is checked. It reads the fields at the offsets of the
    canonical header, checks the four tags, and decodes [dataSize] bytes of
    16-bit little-endian samples. *)

Record wav : Type := mkWav {
  riffSize : Z;
  fmtSize : Z;
  audioFormat : Z;
  numChannels : Z;
  wavSampleRate : Z;
  wavByteRate : Z;
  wavBlockAlign : Z;
  wavBitsPerSample : Z;
  dataSize : Z;
  wavSamples : list Z
}.

Fixpoint read_samples (bs : list Z) : option (list Z) :=
  match bs with
  | [] => Some []
  | b0 :: b1 :: rest =>
      match read_samples rest with
      | Some l => Some (int16 (Uint16 b0 b1) :: l)
      | None => None
      end
  | _ => None
  end.

Definition bytes_eqb (a b : list Z) : bool :=
  if list_eq_dec Z.eq_dec a b then true else false.

Definition parse_wav (bs : list Z) : option wav :=
  match bs with
  | r0 :: r1 :: r2 :: r3 :: s0 :: s1 :: s2 :: s3 ::
    w0 :: w1 :: w2 :: w3 :: f0 :: f1 :: f2 :: f3 ::
    z0 :: z1 :: z2 :: z3 :: a0 :: a1 :: c0 :: c1 ::
    h0 :: h1 :: h2 :: h3 :: y0 :: y1 :: y2 :: y3 ::
    k0 :: k1 :: p0 :: p1 :: d0 :: d1 :: d2 :: d3 ::
    n0 :: n1 :: n2 :: n3 :: payload =>
      let size := Uint32 n0 n1 n2 n3 in
      if bytes_eqb [r0; r1; r2; r3] (bytes_of "RIFF")
         && bytes_eqb [w0; w1; w2; w3] (bytes_of "WAVE")
         && bytes_eqb [f0; f1; f2; f3] (bytes_of "fmt ")
         && bytes_eqb [d0; d1; d2; d3] (bytes_of "data")
         && (size <=? Z.of_nat (length payload))
      then
        match read_samples (firstn (Z.to_nat size) payload) with
        | Some l =>
            Some {| riffSize := Uint32 s0 s1 s2 s3;
                    fmtSize := Uint32 z0 z1 z2 z3;
                    audioFormat := Uint16 a0 a1;
                    numChannels := Uint16 c0 c1;
                    wavSampleRate := Uint32 h0 h1 h2 h3;
                    wavByteRate := Uint32 y0 y1 y2 y3;
                    wavBlockAlign := Uint16 k0 k1;
                    wavBitsPerSample := Uint16 p0 p1;
                    dataSize := size;
                    wavSamples := l |}
        | None => None
        end
      else None
  | _ => None
  end.

(** ** Text: [strings.TrimSpace] *)

Definition rune : Type := Z.
Definition gostring : Type := list rune.

Definition runes_of (s : string) : gostring := bytes_of s.

(** [unicode.IsSpace]: the Latin-1 cases and the [White_Space] table. *)
Definition isSpace (r : rune) : bool :=
  ((9 <=? r) && (r <=? 13)) || (r =? 32) || (r =? 133) || (r =? 160)
  || (r =? 5760) || ((8192 <=? r) && (r <=? 8202))
  || (r =? 8232) || (r =? 8233) || (r =? 8239) || (r =? 8287) || (r =? 12288).

Fixpoint trimLeft (s : gostring) : gostring :=
  match s with
  | r :: s' => if isSpace r then trimLeft s' else s
  | [] => []
  end.

Definition trimRight (s : gostring) : gostring := rev (trimLeft (rev s)).

Definition TrimSpace (s : gostring) : gostring := trimRight (trimLeft s).

(** ** The backend client: [transcribeChunk] (main.go, lines 440-499) *)

(** Go [error] values; [Errorf] is [fmt.Errorf("<prefix>: %w", cause)]. *)
Inductive error : Type :=
| ClientError (msg : string)
| BadStatus (status : string) (body : list Z)
| DecodeError (msg : string)
| Errorf (prefix : string) (cause : error)
| ErrorfAt (prefix : string) (start : Z) (cause : error).

Inductive res (A : Type) : Type :=
| Ok (a : A)
| Fail (e : error).
Arguments Ok {A} a.
Arguments Fail {A} e.

(** What [json.NewDecoder(resp.Body).Decode(&result)] gives: the [text]
    field, or an error. *)
Inductive decoded : Type :=
| Json (Text : gostring)
| Malformed (msg : string).

(** What the request gives: [http.NewRequest] rejects the URL built from the
    host and port flags, or [httpClient.Do(req)] returns an error (network
    failure, the 30 s timeout), or there is a response. *)
Inductive http_outcome : Type :=
| NewRequestError (msg : string)
| DoError (msg : string)
| Response (StatusCode : Z) (Status : string) (body : list Z) (dec : decoded).

(** The backend, seen from the client: the outcome of posting a WAV file. *)
Definition backend : Type := list Z -> http_outcome.

Definition StatusOK : Z := 200.

Definition BLANK_AUDIO : gostring := runes_of "[BLANK_AUDIO]".
Definition newline : rune := 10.

Definition gostring_eqb (a b : gostring) : bool :=
  if list_eq_dec Z.eq_dec a b then true else false.

(** [wavBuffer.Reset()] empties the shared buffer before it is written, and
    the multipart writer targets a [bytes.Buffer], so that none of the steps
    before [httpClient.Do] returns an error. *)
Definition transcribeChunk (be : backend) (samples : list Z) : res gostring :=
  let wavBuffer := writeWavToBuffer [] samples sampleRate channels in
  match be wavBuffer with
  | NewRequestError msg => Fail (Errorf "creating request" (ClientError msg))
  | DoError msg => Fail (Errorf "executing request" (ClientError msg))
  | Response code status body dec =>
      if negb (code =? StatusOK) then Fail (BadStatus status body)
      else
        match dec with
        | Malformed msg => Fail (Errorf "decoding response" (DecodeError msg))
        | Json Text =>
            let text := TrimSpace Text in
            if gostring_eqb text BLANK_AUDIO
               || gostring_eqb text (newline :: BLANK_AUDIO)
            then Ok []
            else Ok text
        end
  end.

(** ** The overlapping splitter: [transcribeInChunks] (main.go, lines 502-530) *)

(** [int(minChunkDuration.Seconds() * float64(sampleRate))] and
    [int(chunkOverlap.Seconds() * float64(sampleRate))]: the products
    [1.0 * 16000.0] and [0.5 * 16000.0] are exact. *)
Definition samplesPerChunk : Z := minChunkDuration * sampleRate / second.
Definition overlapSamples : Z := chunkOverlap * sampleRate / second.

(** [samples[start:end]] for [0 <= start <= end <= len(samples)]. *)
Definition slice (samples : list Z) (start end_ : Z) : list Z :=
  firstn (Z.to_nat (end_ - start)) (skipn (Z.to_nat start) samples).

Definition space : rune := 32.

(** The result of the loop together with the windows it submitted, in
    order; the [k]-th request is answered by [be k]. The loop is given fuel;
    [None] is fuel exhausted. *)
Fixpoint chunk_loop (fuel : nat) (W Ov : Z) (be : nat -> backend)
    (samples : list Z) (k : nat) (start : Z) (fullText : gostring)
    : option (list (Z * Z) * res gostring) :=
  match fuel with
  | O => None
  | S fuel' =>
      let len := Z.of_nat (length samples) in
      if start <? len then
        let end0 := int64 (start + W) in
        let end_ := if end0 >? len then len else end0 in
        let chunk := slice samples start end_ in
        match transcribeChunk (be k) chunk with
        | Fail e =>
            Some ([(start, end_)], Fail (ErrorfAt "transcribing chunk at" start e))
        | Ok text =>
            match chunk_loop fuel' W Ov be samples (S k)
                    (int64 (start + int64 (W - Ov)))
                    (fullText ++ text ++ [space]) with
            | Some (ws, r) => Some ((start, end_) :: ws, r)
            | None => None
            end
        end
      else Some ([], Ok fullText)
  end.

(** The function for a window [W] and an overlap [Ov]. *)
Definition transcribeInChunksWith (W Ov : Z) (be : nat -> backend)
    (samples : list Z) : option (list (Z * Z) * res gostring) :=
  let len := Z.of_nat (length samples) in
  if len <=? W then
    Some ([(0, len)], transcribeChunk (be 0%nat) samples)
  else chunk_loop (S (length samples)) W Ov be samples 0%nat 0 [].

Definition transcribeInChunks (be : nat -> backend) (samples : list Z)
    : option (list (Z * Z) * res gostring) :=
  transcribeInChunksWith samplesPerChunk overlapSamples be samples.

(** The count the loop makes, and the count of the specification. *)
Definition ceil_div (a b : Z) : Z := (a + b - 1) / b.
Definition window_count (W Ov L : Z) : Z := ceil_div L (W - Ov).

(** The [k]-th window: it starts at [k * (W - Ov)] and is clipped to [L]. *)
Definition window (W Ov L : Z) (k : nat) : Z * Z :=
  (Z.of_nat k * (W - Ov), Z.min (Z.of_nat k * (W - Ov) + W) L).



(** ** Time ([time.Time], [time.Duration]) *)

(** An instant is a count of nanoseconds; [0] is the zero value
    [time.Time{}]. [Sub] saturates at the bounds of [time.Duration]. *)
Definition Time : Type := Z.
Definition zeroTime : Time := 0.
Definition IsZero (t : Time) : bool := t =? zeroTime.

Definition minDuration : Z := - 2 ^ 63.
Definition maxDuration : Z := 2 ^ 63 - 1.

Definition Sub (t u : Time) : Z :=
  Z.max minDuration (Z.min maxDuration (t - u)).

(** [time.Since(t)] when the clock reads [now]. *)
Definition Since (now t : Time) : Z := Sub now t.

(** ** The audio channel and [readNextChunk] (main.go, lines 351-358) *)

Record AudioChunk : Type := mkChunk {
  timestamp : Time;
  data : list Z
}.

(** [AudioChunk{}]. *)
Definition zeroChunk : AudioChunk := {| timestamp := zeroTime; data := [] |}.

(** A buffered Go channel: the values sent and not yet received, oldest
    first, and whether [close] was called. *)
Record chan : Type := mkChan {
  queue : list AudioChunk;
  closed : bool
}.

(** [make(chan AudioChunk, 10)]. *)
Definition capacity : nat := 10.
Definition make_chan : chan := {| queue := []; closed := false |}.

(** [select { case chunk := <-audioChan: ...; default: ... }]: the receive
    is ready when a value is buffered, and also when the channel is closed
    and drained, in which case it yields the zero value. *)
Definition readNextChunk (audioChan : chan) : (AudioChunk * bool) * chan :=
  match queue audioChan with
  | chunk :: rest =>
      ((chunk, true), {| queue := rest; closed := closed audioChan |})
  | [] =>
      if closed audioChan then ((zeroChunk, true), audioChan)
      else ((zeroChunk, false), audioChan)
  end.

(** [n] successive calls: the results in order, and the channel left. *)
Fixpoint read_n (n : nat) (c : chan) : list (AudioChunk * bool) * chan :=
  match n with
  | O => ([], c)
  | S n' =>
      let '(r, c') := readNextChunk c in
      let '(rs, c'') := read_n n' c' in
      (r :: rs, c'')
  end.

(** ** The producer: [recordLoop] (main.go, lines 379-421) *)

(** What the producer does to the channel. A send recorded here is one that
    completed, that is, one that found room in the buffer. *)
Inductive producer_op : Type :=
| Send (chunk : AudioChunk)
| Close.

Definition apply_op (c : chan) (op : producer_op) : chan :=
  match op with
  | Send chunk => {| queue := queue c ++ [chunk]; closed := closed c |}
  | Close => {| queue := queue c; closed := true |}
  end.

(** [int(float64(chunkDuration)/float64(time.Second)) * sampleRate * 2]. *)
Definition chunkBytes (chunkDuration : Z) : Z :=
  Z.quot chunkDuration second * sampleRate * 2.

(** The decoding loop of [recordLoop]:
    [samples[i] = int16(binary.LittleEndian.Uint16(b[i*2 : i*2+2]))]
    for [i < len(b) / 2]. *)
Fixpoint decode_pairs (bs : list Z) : list Z :=
  match bs with
  | b0 :: b1 :: rest => int16 (Uint16 b0 b1) :: decode_pairs rest
  | _ => []
  end.

(** One [io.ReadFull(stdout, buffer)]: a full buffer, received at some
    instant, or an error (a short read, a failure, the end of the scope). *)
Inductive read : Type :=
| ReadFull (bytes : list Z) (at_ : Time)
| ReadErr.

(** The read loop of [recordLoop]: every full read is sent, the first error
    leaves the loop and closes the channel. *)
Fixpoint read_loop (reads : list read) : list producer_op :=
  match reads with
  | ReadFull bytes at_ :: rest =>
      Send {| timestamp := at_; data := decode_pairs bytes |}
      :: read_loop rest
  | ReadErr :: _ => [Close]
  | [] => []
  end.

(** [recordLoop]: when the capture command cannot be started the channel is
    closed at once; otherwise the read loop runs. *)
Definition recordLoop (started : bool) (reads : list read)
    : list producer_op :=
  if started then read_loop reads else [Close].

(** ** The segmentation loop: [run] and [finalizeTranscript]
       (main.go, lines 299-375) *)

(** What the session does to its collaborators. [log.Printf] lines are not
    part of the trace. *)
Inductive event : Type :=
| EvTranscribe (samples : list Z)     (* transcribeChunk(samples) *)
| EvType (text : gostring)            (* keyboard.typeText(text) *)
| EvPrintFinal (text : gostring)      (* fmt.Printf("\nFinal transcription: %s\n", text) *)
| EvPrintHeader                       (* fmt.Println("\nComplete Transcript:") *)
| EvPrintLine (line : gostring)       (* fmt.Println(line) *)
| EvSleep (d : Z).                    (* time.Sleep(d) *)

Definition is_flush (e : event) : bool :=
  match e with EvTranscribe _ => true | _ => false end.

Definition is_type (e : event) : bool :=
  match e with EvType _ => true | _ => false end.

(** The local variables of [run]. *)
Record session : Type := mkSession {
  phraseBuffer : list Z;
  transcriptLines : list gostring;
  silenceStart : Time;
  audioChan : chan
}.

(** The state at the top of [run]. *)
Definition start_session : session :=
  {| phraseBuffer := []; transcriptLines := []; silenceStart := zeroTime;
     audioChan := make_chan |}.

(** What the environment contributes to one iteration of the loop: what the
    producer did to the channel since the previous iteration, whether the
    context is done, the reading of the clock, and the backend. *)
Record tick : Type := mkTick {
  produced : list producer_op;
  ctxDone : bool;
  now : Time;
  be : backend
}.

Inductive status : Type :=
| Looping
| Returned (err : option error)
| Panicked (p : panic).

Record outcome : Type := mkOutcome {
  st : status;
  vars : session;
  events : list event
}.

(** [finalizeTranscript(buffer, lines)]: the error returned, the value of
    the local [lines] when it returns, and the events. *)
Definition finalizeTranscript (b : backend) (buffer : list Z)
    (lines : list gostring) : option error * list gostring * list event :=
  if (0 <? Z.of_nat (length buffer)) then
    match transcribeChunk b buffer with
    | Fail err =>
        (Some (Errorf "final transcription error" err), lines,
         [EvTranscribe buffer])
    | Ok text =>
        let lines := lines ++ [text] in
        (None, lines,
         [EvTranscribe buffer; EvPrintFinal text; EvPrintHeader]
           ++ map EvPrintLine lines)
    end
  else (None, lines, EvPrintHeader :: map EvPrintLine lines).

(** One iteration of the [for] loop of [run]. *)
Definition step (t : tick) (s : session) : outcome :=
  let ch := fold_left apply_op (produced t) (audioChan s) in
  if ctxDone t then
    let '(err, lines, evs) :=
      finalizeTranscript (be t) (phraseBuffer s) (transcriptLines s) in
    {| st := Returned err;
       vars := {| phraseBuffer := phraseBuffer s; transcriptLines := lines;
                  silenceStart := silenceStart s; audioChan := ch |};
       events := evs |}
  else
    let '((chunk, ok), ch) := readNextChunk ch in
    if negb ok then
      {| st := Looping;
         vars := {| phraseBuffer := phraseBuffer s;
                    transcriptLines := transcriptLines s;
                    silenceStart := silenceStart s; audioChan := ch |};
         events := [EvSleep (50 * millisecond)] |}
    else
      match isSilent (data chunk) energyThreshold with
      | Panic p =>
          {| st := Panicked p;
             vars := {| phraseBuffer := phraseBuffer s;
                        transcriptLines := transcriptLines s;
                        silenceStart := silenceStart s; audioChan := ch |};
             events := [] |}
      | Val true =>
          let silenceStart :=
            if IsZero (silenceStart s) then timestamp chunk
            else silenceStart s in
          if (Z.of_nat (length (phraseBuffer s)) >? 0)
             && (Since (now t) silenceStart >? silenceDuration)
          then
            match transcribeChunk (be t) (phraseBuffer s) with
            | Fail err =>
                {| st := Returned (Some (Errorf "transcription error" err));
                   vars := {| phraseBuffer := phraseBuffer s;
                              transcriptLines := transcriptLines s;
                              silenceStart := silenceStart;
                              audioChan := ch |};
                   events := [EvTranscribe (phraseBuffer s)] |}
            | Ok text =>
                {| st := Looping;
                   vars := {| phraseBuffer := [];
                              transcriptLines := transcriptLines s ++ [text];
                              silenceStart := zeroTime; audioChan := ch |};
                   events := [EvTranscribe (phraseBuffer s); EvType text] |}
            end
          else
            {| st := Looping;
               vars := {| phraseBuffer := phraseBuffer s;
                          transcriptLines := transcriptLines s;
                          silenceStart := silenceStart; audioChan := ch |};
               events := [] |}
      | Val false =>
          {| st := Looping;
             vars := {| phraseBuffer := phraseBuffer s ++ data chunk;
                        transcriptLines := transcriptLines s;
                        silenceStart := zeroTime; audioChan := ch |};
             events := [] |}
      end.

(** The loop over the iterations the environment lets it make; [Looping]
    is a session that is still active after the last of them. *)
Fixpoint run_loop (ts : list tick) (s : session) : outcome :=
  match ts with
  | [] => {| st := Looping; vars := s; events := [] |}
  | t :: ts' =>
      let o := step t s in
      match st o with
      | Looping =>
          let o' := run_loop ts' (vars o) in
          {| st := st o'; vars := vars o'; events := events o ++ events o' |}
      | _ => o
      end
  end.

Definition run (ts : list tick) : outcome := run_loop ts start_session.

(** The flushes of a trace, and what reached the text-injection sink. *)
Definition flushes (evs : list event) : list event := filter is_flush evs.
Definition typed (evs : list event) : list gostring :=
  flat_map (fun e => match e with EvType text => [text] | _ => [] end) evs.



(** The header as the encoder lays it out: the first 44 bytes. *)
Definition wav_header (samples : list Z) (sampleRate channels : Z) : list Z :=
  firstn 44 (writeWavToBuffer [] samples sampleRate channels).

(** A phrase of 2^31 samples of digital silence (about 37 hours at 16 kHz). *)
Definition long_phrase : list Z := repeat 0 (Z.to_nat (2 ^ 31)).

(** ** Sample inputs *)

(** A backend that answers every request with the same text, and one that
    cannot be reached. *)
Definition reply (text : string) : backend :=
  fun _ => Response 200 "200 OK" [] (Json (runes_of text)).
Definition unreachable : backend :=
  fun _ => DoError "connection refused".

Definition speech_frame (at_ : Time) : AudioChunk :=
  {| timestamp := at_; data := [1000; -1000] |}.
Definition quiet_frame (at_ : Time) : AudioChunk :=
  {| timestamp := at_; data := [3; -2] |}.

(** An iteration that finds [chunk] in the channel, and one that finds the
    context done. *)
Definition frame_tick (chunk : AudioChunk) (now : Time) (b : backend) : tick :=
  {| produced := [Send chunk]; ctxDone := false; now := now; be := b |}.
Definition cancel_tick (now : Time) (b : backend) : tick :=
  {| produced := []; ctxDone := true; now := now; be := b |}.

(** A session in the middle of a phrase. *)
Definition mid_phrase : session :=
  {| phraseBuffer := [1000; -1000]; transcriptLines := [runes_of "one"];
     silenceStart := zeroTime; audioChan := make_chan |}.

(** ** The keyboard: [keysymToRune], [initKeymap], [typeText]
       (main.go, lines 67-204) *)

Definition int32 (z : Z) : Z := (z + 2 ^ 31) mod 2 ^ 32 - 2 ^ 31.
Definition byte (z : Z) : Z := z mod 2 ^ 8.

(** A Go map literal or a map built by assignments, as the list of its
    entries, the most recent first; a lookup takes the first match. *)
Fixpoint lookup (k : Z) (m : list (Z * Z)) : option Z :=
  match m with
  | [] => None
  | (k', v) :: rest => if k =? k' then Some v else lookup k rest
  end.

(** The [punctuation] table of [keysymToRune]. *)
Definition punctuation : list (Z * rune) :=
  [ (0x003f, 63)    (* '?' *)
  ; (0x002e, 46)    (* '.' *)
  ; (0x002c, 44)    (* ',' *)
  ; (0x0021, 33)    (* '!' *)
  ; (0x0027, 39)    (* single quote *)
  ; (0x0022, 34)    (* double quote *)
  ; (0x0028, 40)    (* '(' *)
  ; (0x0029, 41)    (* ')' *)
  ; (0x002d, 45)    (* '-' *)
  ; (0x005f, 95)    (* '_' *)
  ].

(** [keysym] is an [xproto.Keysym], a uint32; a [rune] is an int32, so that
    [rune(keysym)] is a conversion that can wrap, and the subtraction is a
    uint32 subtraction. *)
Definition keysymToRune (keysym : Z) : rune :=
  match lookup keysym punctuation with
  | Some r => r
  | None =>
      if keysym <? 0x100 then int32 keysym
      else if keysym >=? 0x1000000 then int32 (uint32 (keysym - 0x1000000))
      else if (keysym >=? 0x20) && (keysym <=? 0x7e) then int32 keysym
      else 0
  end.

(** The reply of [xproto.GetKeyboardMapping]. *)
Record KeyboardMapping : Type := mkMapping {
  KeysymsPerKeycode : Z;
  Keysyms : list Z
}.

(** [k.keymap], a [map[rune]byte]. *)
Definition keymap : Type := list (rune * Z).

(** The body of the inner loop of [initKeymap] for one [offset]. The
    keycodes and the count per keycode are bytes, so that the [int]
    arithmetic stays below 2^16. *)
Definition keymap_offset (MinKeycode : Z) (mapping : KeyboardMapping)
    (keycode : Z) (m : keymap) (offset : nat) : keymap :=
  let keysPerCode := KeysymsPerKeycode mapping in
  let idx := (keycode - MinKeycode) * keysPerCode + Z.of_nat offset in
  if idx >=? Z.of_nat (length (Keysyms mapping)) then m
  else
    let keysym := nth (Z.to_nat idx) (Keysyms mapping) 0 in
    if keysym =? 0 then m
    else
      let r := keysymToRune keysym in
      if negb (r =? 0) then (r, byte keycode) :: m else m.

(** The inner loop: [for offset := 0; offset < keysPerCode; offset++]. *)
Definition keymap_keycode (MinKeycode : Z) (mapping : KeyboardMapping)
    (m : keymap) (keycode : Z) : keymap :=
  fold_left (keymap_offset MinKeycode mapping keycode)
    (seq 0 (Z.to_nat (KeysymsPerKeycode mapping))) m.

(** The keycodes of the outer loop:
    [for keycode := int(MinKeycode); keycode <= int(MaxKeycode); keycode++]. *)
Definition keycodes (MinKeycode MaxKeycode : Z) : list Z :=
  map (fun i => MinKeycode + Z.of_nat i)
    (seq 0 (Z.to_nat (MaxKeycode - MinKeycode + 1))).

(** [initKeymap], given the setup of the connection and the reply of the
    server to the mapping request. *)
Definition initKeymap (MinKeycode MaxKeycode : Z)
    (reply : res KeyboardMapping) : res keymap :=
  match reply with
  | Fail err => Fail (Errorf "getting keyboard mapping" err)
  | Ok mapping =>
      Ok (fold_left (keymap_keycode MinKeycode mapping)
            (keycodes MinKeycode MaxKeycode) [])
  end.

(** What [typeText] sends: [xtest.FakeInput(conn, type, detail, ...)] with
    type 2 for a key press and 3 for a key release, and the pauses. The
    [log.Printf] of a skipped character is not part of the trace. *)
Inductive xinput : Type :=
| FakeInput (type_ : Z) (detail : Z)
| Sleep (d : Z).

Definition KeyPress : Z := 2.
Definition KeyRelease : Z := 3.
Definition shiftCode : Z := 50.

(** The characters of the literal given to [strings.ContainsRune]; 34 is
    the double quote. *)
Definition shifted_chars : gostring :=
  runes_of "?!@#$%^&*()_+{}|:" ++ [34] ++ runes_of "<>~".

Definition needsShift (char : rune) : bool :=
  ((char >=? 65) && (char <=? 90))
  || existsb (Z.eqb char) shifted_chars.

(** One iteration of [for _, char := range text]. *)
Definition type_char (m : keymap) (char : rune) : list xinput :=
  match lookup char m with
  | None => []
  | Some keycode =>
      (if needsShift char then [FakeInput KeyPress shiftCode] else [])
      ++ [FakeInput KeyPress keycode; Sleep (5 * millisecond);
          FakeInput KeyRelease keycode; Sleep (5 * millisecond)]
      ++ (if needsShift char then [FakeInput KeyRelease shiftCode] else [])
  end.

Definition typeText (m : keymap) (text : gostring) : list xinput :=
  flat_map (type_char m) text
  ++ match lookup 32 m with
     | Some spaceCode =>
         [FakeInput KeyPress spaceCode; Sleep (5 * millisecond);
          FakeInput KeyRelease spaceCode; Sleep (5 * millisecond)]
     | None => []
     end.



(** The keys a sequence of inputs presses, in order. *)
Definition pressed (xs : list xinput) : list Z :=
  flat_map (fun x => match x with
                     | FakeInput type_ detail =>
                         if type_ =? KeyPress then [detail] else []
                     | Sleep _ => []
                     end) xs.

(** A keysym of the mapping that gives [r] at [keycode]. *)
Definition provides (MinKeycode : Z) (mapping : KeyboardMapping)
    (keycode : Z) (r : rune) (offset : nat) : Prop :=
  let idx := (keycode - MinKeycode) * KeysymsPerKeycode mapping
             + Z.of_nat offset in
  (offset < Z.to_nat (KeysymsPerKeycode mapping))%nat
  /\ idx < Z.of_nat (length (Keysyms mapping))
  /\ nth (Z.to_nat idx) (Keysyms mapping) 0 <> 0
  /\ keysymToRune (nth (Z.to_nat idx) (Keysyms mapping) 0) = r
  /\ r <> 0.

(** The assignments made when the loops of [initKeymap] stand at keycode
    [K], offset [j]: [keycode] has been given to [r]. *)
Definition written (MinKeycode : Z) (mapping : KeyboardMapping)
    (K : Z) (j : nat) (r : rune) (keycode : Z) : Prop :=
  MinKeycode <= keycode
  /\ exists offset,
       provides MinKeycode mapping keycode r offset
       /\ (keycode < K \/ (keycode = K /\ (offset < j)%nat)).

(** The entry of [r] is the last assignment to [r]. *)
Definition last_write (W : Z -> Prop) (entry : option Z) : Prop :=
  match entry with
  | Some kc =>
      exists keycode,
        kc = byte keycode /\ W keycode
        /\ forall k', keycode < k' -> ~ W k'
  | None => forall k', ~ W k'
  end.

Definition keymap_inv (MinKeycode : Z) (mapping : KeyboardMapping)
    (K : Z) (j : nat) (m : keymap) : Prop :=
  forall r, last_write (written MinKeycode mapping K j r) (lookup r m).

(** A small keyboard: keycodes 8 to 10, two keysyms each. *)
Definition sample_mapping : KeyboardMapping :=
  {| KeysymsPerKeycode := 2;
     Keysyms := [0x61; 0x41; 0x20; 0xffe1; 0x61; 0] |}.

Definition sample_keymap : keymap :=
  match initKeymap 8 10 (Ok sample_mapping) with
  | Ok m => m
  | Fail _ => []
  end.

Definition mapped (m : keymap) (char : rune) : bool :=
  match lookup char m with Some _ => true | None => false end.

(** No white space at either end. *)
Definition trimmedb (s : gostring) : bool :=
  match s with r :: _ => negb (isSpace r) | [] => true end
  && match rev s with r :: _ => negb (isSpace r) | [] => true end.

(** What the keyboard receives for a trace of the session, when the sink is
    [typeText] over the keymap [m]. *)
Definition sink_inputs (m : keymap) (evs : list event) : list xinput :=
  flat_map (fun e => match e with
                     | EvType text => typeText m text
                     | _ => []
                     end) evs.

Definition is_byte (b : Z) : Prop := 0 <= b < 256.

(** A full read, and the frame [recordLoop] makes of it. *)
Definition full (p : list Z * Time) : read := ReadFull (fst p) (snd p).
Definition frame_of (p : list Z * Time) : AudioChunk :=
  {| timestamp := snd p; data := decode_pairs (fst p) |}.

(** The texts printed by the final flush. *)
Definition printed_final (evs : list event) : list gostring :=
  flat_map (fun e => match e with EvPrintFinal text => [text] | _ => [] end)
    evs.



(** An iteration that is not cancelled and during which the producer did
    nothing. *)
Definition quiet_tick (t : tick) : Prop :=
  ctxDone t = false /\ produced t = [].

(** Three samples as captured: 1, -1 and -32768. *)
Definition sample_bytes : list Z := [1; 0; 255; 255; 0; 128].

(** ** The hot key: the event loop of [onReady] (main.go, lines 254-292) *)

(** What [keyboard.conn.WaitForEvent()] returns: an error, a key press with
    its keycode, or an event of another type. *)
Inductive xevent : Type :=
| WaitError
| KeyPressEvent (Detail : Z)
| OtherEvent.

(** What the loop does to the tray and to sessions. A context made by
    [context.WithCancel] is named by its rank among the contexts made. *)
Inductive ui_action : Type :=
| IconOn                              (* SetTemplateIcon(iconOn), tooltip *)
| GoRun (ctx : nat)                   (* go run(ctx, keyboard) *)
| CancelCtx (ctx : nat)               (* cancel() *)
| IconOff.                            (* SetIcon(iconOff), tooltip *)

(** The variables [isActive] and [cancel], and the number of contexts made
    so far. *)
Record ui : Type := mkUi {
  isActive : bool;
  cancel : option nat;
  contexts : nat
}.

Definition ui_start : ui :=
  {| isActive := false; cancel := None; contexts := 0 |}.

Definition hotkey : Z := 38.

(** One iteration of the event loop. *)
Definition on_event (u : ui) (ev : xevent) : ui * list ui_action :=
  match ev with
  | WaitError => (u, [])
  | OtherEvent => (u, [])
  | KeyPressEvent Detail =>
      if Detail =? hotkey then
        if negb (isActive u) then
          ({| isActive := negb (isActive u);
              cancel := Some (contexts u);
              contexts := S (contexts u) |},
           [IconOn; GoRun (contexts u)])
        else
          ({| isActive := negb (isActive u);
              cancel := cancel u;
              contexts := contexts u |},
           match cancel u with
           | Some c => [CancelCtx c]
           | None => []
           end ++ [IconOff])
      else (u, [])
  end.

Fixpoint event_loop (u : ui) (evs : list xevent) : ui * list ui_action :=
  match evs with
  | [] => (u, [])
  | ev :: rest =>
      let '(u', acts) := on_event u ev in
      let '(u'', acts') := event_loop u' rest in
      (u'', acts ++ acts')
  end.

(** The presses of the hot key among the events, and the session actions
    among the actions. *)
Definition is_hotkey (ev : xevent) : bool :=
  match ev with KeyPressEvent Detail => Detail =? hotkey | _ => false end.

Definition presses (evs : list xevent) : nat :=
  length (filter is_hotkey evs).

Definition session_actions (acts : list ui_action) : list ui_action :=
  filter (fun a => match a with GoRun _ | CancelCtx _ => true | _ => false end)
    acts.

(** The [k]-th press, counted from 0, starts session [k / 2] when [k] is
    even and cancels it when [k] is odd. *)
Definition toggle (k : nat) : ui_action :=
  if Nat.even k then GoRun (Nat.div2 k) else CancelCtx (Nat.div2 k).

(** The state of the loop after [p] presses of the hot key. *)
Definition ui_inv (p : nat) (u : ui) : Prop :=
  isActive u = negb (Nat.even p)
  /\ contexts u = Nat.div2 (S p)
  /\ (Nat.even p = false -> cancel u = Some (Nat.div2 p)).
(** ** Lemmas on the machine integers *)

Lemma int64_id z : is_int64 z -> int64 z = z.
Proof.
  unfold is_int64, int64. intros H.
  rewrite Z.mod_small by lia. lia.
Qed.

Lemma int16_id z : is_int16 z -> int16 z = z.
Proof.
  unfold is_int16, int16. intros H.
  rewrite Z.mod_small by lia. lia.
Qed.

Lemma abs_sample_abs s : - 2 ^ 15 < s < 2 ^ 15 -> abs_sample s = Z.abs s.
Proof.
  intros H. unfold abs_sample.
  destruct (Z.ltb_spec s 0).
  - rewrite int16_id by (unfold is_int16; lia). lia.
  - lia.
Qed.

Lemma abs_sample_min : abs_sample (- 2 ^ 15) = - 2 ^ 15.
Proof. reflexivity. Qed.

Lemma sum_abs_bounds data :
  Forall symmetric_sample data ->
  0 <= sum_abs data <= (2 ^ 15 - 1) * Z.of_nat (length data).
Proof.
  induction 1 as [|s l Hs Hl IH]; simpl sum_abs; simpl length.
  - lia.
  - unfold symmetric_sample in Hs. rewrite Nat2Z.inj_succ. lia.
Qed.

Lemma sum_abs_app l1 l2 : sum_abs (l1 ++ l2) = sum_abs l1 + sum_abs l2.
Proof.
  induction l1 as [|s l1 IH]; simpl; [reflexivity|].
  unfold sum_abs in IH |- *. simpl. rewrite IH. lia.
Qed.

(** Without the most negative sample and below 2^48 samples nothing wraps:
    the loop computes the mathematical sum of the absolute values. *)
Lemma fold_sum_step acc data :
  Forall symmetric_sample data ->
  0 <= acc ->
  acc + (2 ^ 15 - 1) * Z.of_nat (length data) < 2 ^ 63 ->
  fold_left sum_step data acc = acc + sum_abs data.
Proof.
  intros Hall. revert acc.
  induction Hall as [|s l Hs Hl IH]; intros acc Hacc Hlen; simpl.
  - lia.
  - simpl length in Hlen. rewrite Nat2Z.inj_succ in Hlen.
    pose proof (sum_abs_bounds l Hl) as Hb.
    assert (Hstep : sum_step acc s = acc + Z.abs s).
    { unfold sum_step. rewrite abs_sample_abs by exact Hs.
      apply int64_id. unfold is_int64, symmetric_sample in *. lia. }
    rewrite Hstep. unfold symmetric_sample in Hs.
    rewrite IH by lia. lia.
Qed.

Lemma sum_samples_exact data :
  Forall symmetric_sample data ->
  Z.of_nat (length data) < 2 ^ 48 ->
  sum_samples data = sum_abs data.
Proof.
  intros Hall Hlen. unfold sum_samples.
  rewrite fold_sum_step by (auto; lia). lia.
Qed.

(** On the frames where nothing wraps, [isSilent] decides exactly the
    comparison of the mean absolute amplitude with the threshold. *)
Lemma isSilent_mean data threshold :
  data <> [] ->
  Forall symmetric_sample data ->
  Z.of_nat (length data) < 2 ^ 48 ->
  is_int64 threshold ->
  isSilent data threshold = Val true <-> mean_abs_lt data threshold.
Proof.
  intros Hne Hall Hlen Hth.
  assert (Hn : 0 < Z.of_nat (length data)) by (destruct data; [congruence | simpl; lia]).
  pose proof (sum_abs_bounds data Hall) as Hb.
  unfold isSilent, go_div64, mean_abs_lt.
  rewrite (int64_id (Z.of_nat (length data))) by (unfold is_int64; lia).
  rewrite sum_samples_exact by assumption.
  destruct (Z.eqb_spec (Z.of_nat (length data)) 0) as [E|_]; [lia|].
  rewrite (int64_id threshold) by assumption.
  set (n := Z.of_nat (length data)) in *.
  assert (Hq : Z.quot (sum_abs data) n = sum_abs data / n)
    by (apply Z.quot_div_nonneg; lia).
  rewrite Hq.
  assert (Hd : 0 <= sum_abs data / n <= sum_abs data).
  { split; [apply Z.div_pos; lia|]. apply Z.div_le_upper_bound; nia. }
  rewrite int64_id by (unfold is_int64; lia).
  split.
  - intros H. injection H as H. apply Z.ltb_lt in H.
    pose proof (Z.div_mod (sum_abs data) n ltac:(lia)) as Hdm.
    pose proof (Z.mod_pos_bound (sum_abs data) n Hn) as Hm.
    nia.
  - intros H. f_equal. apply Z.ltb_lt.
    apply Z.div_lt_upper_bound; lia.
Qed.

(** ** Frame classification *)

(** C1. The specification asks for a guard against zero-length frames.
    [isSilent] has none: on the empty frame the divisor [int64(len(data))]
    is zero and the division panics, for every threshold. *)
Theorem isSilent_empty_frame_panics :
  forall threshold, isSilent [] threshold = Panic DivideByZero.
Proof. intros threshold. reflexivity. Qed.

(** C2. The negation in [isSilent] is an int16 negation, which maps the most
    negative sample to itself. The one-sample frame [[-32768]] has mean
    absolute amplitude 32768, far above the threshold, and is classified
    Silent. *)
Theorem isSilent_min_sample_is_silent :
  isSilent [- 32768] energyThreshold = Val true
  /\ sum_abs [- 32768] = 32768
  /\ ~ mean_abs_lt [- 32768] energyThreshold
  /\ isSilent (repeat (- 32768) (Z.to_nat 16000)) energyThreshold = Val true.
Proof.
  split; [reflexivity|]. split; [reflexivity|]. split.
  - unfold mean_abs_lt. simpl. unfold energyThreshold. lia.
  - vm_compute. reflexivity.
Qed.

(** On a non-empty frame the division is defined: [isSilent] returns. *)
Lemma isSilent_nonempty_returns data threshold :
  data <> [] ->
  Z.of_nat (length data) < 2 ^ 63 ->
  exists silent, isSilent data threshold = Val silent.
Proof.
  intros Hne Hlen. unfold isSilent, go_div64.
  rewrite (int64_id (Z.of_nat (length data))) by (unfold is_int64; lia).
  destruct (Z.eqb_spec (Z.of_nat (length data)) 0) as [E|_].
  - destruct data; [congruence | simpl in E; lia].
  - eauto.
Qed.

(** The boundary: a frame whose energy equals the threshold is Speech. *)
Example isSilent_at_threshold :
  isSilent [80; -80; 80] energyThreshold = Val false
  /\ isSilent [79; -80; 80] energyThreshold = Val true.
Proof. split; reflexivity. Qed.

(** ** Little-endian encoding *)

Lemma uint32_range v : 0 <= uint32 v < 2 ^ 32.
Proof. unfold uint32. apply Z.mod_pos_bound. lia. Qed.

Lemma uint16_range v : 0 <= uint16 v < 2 ^ 16.
Proof. unfold uint16. apply Z.mod_pos_bound. lia. Qed.

Lemma uint32_id v : 0 <= v < 2 ^ 32 -> uint32 v = v.
Proof. intros H. unfold uint32. apply Z.mod_small. exact H. Qed.

Lemma uint16_id v : 0 <= v < 2 ^ 16 -> uint16 v = v.
Proof. intros H. unfold uint16. apply Z.mod_small. exact H. Qed.

Lemma uint32_idem v : uint32 (uint32 v) = uint32 v.
Proof. apply uint32_id, uint32_range. Qed.

Lemma uint16_idem v : uint16 (uint16 v) = uint16 v.
Proof. apply uint16_id, uint16_range. Qed.

Lemma Uint16_bytes u :
  0 <= u < 2 ^ 16 -> Uint16 (u mod 256) (u / 256) = u.
Proof.
  intros H. unfold Uint16.
  pose proof (Z.div_mod u 256 ltac:(lia)). lia.
Qed.

Lemma Uint32_bytes u :
  0 <= u < 2 ^ 32 ->
  Uint32 (u mod 256) (u / 2 ^ 8 mod 256) (u / 2 ^ 16 mod 256) (u / 2 ^ 24) = u.
Proof.
  intros H. unfold Uint32.
  change (2 ^ 8) with 256. change (2 ^ 16) with (256 * 256).
  change (2 ^ 24) with (256 * 256 * 256).
  rewrite <- !Z.div_div by lia.
  pose proof (Z.div_mod u 256 ltac:(lia)).
  pose proof (Z.div_mod (u / 256) 256 ltac:(lia)).
  pose proof (Z.div_mod (u / 256 / 256) 256 ltac:(lia)).
  lia.
Qed.

Lemma int16_uint16 s : is_int16 s -> int16 (uint16 s) = s.
Proof.
  unfold is_int16, int16, uint16. intros H.
  destruct (Z.ltb_spec s 0).
  - replace (s mod 2 ^ 16) with (s + 2 ^ 16).
    + replace (s + 2 ^ 16 + 2 ^ 15) with (s + 2 ^ 15 + 1 * 2 ^ 16) by lia.
      rewrite Z.mod_add by lia. rewrite Z.mod_small by lia. lia.
    + symmetry. replace s with (s + 2 ^ 16 + (-1) * 2 ^ 16) at 1 by lia.
      rewrite Z.mod_add by lia. apply Z.mod_small. lia.
  - rewrite (Z.mod_small s) by lia. rewrite Z.mod_small by lia. lia.
Qed.

Lemma write_samples_length samples :
  length (write_samples samples) = (2 * length samples)%nat.
Proof.
  induction samples as [|s l IH]; simpl; [reflexivity|].
  rewrite IH. lia.
Qed.

Lemma read_write_samples samples :
  Forall is_int16 samples ->
  read_samples (write_samples samples) = Some samples.
Proof.
  induction 1 as [|s l Hs Hl IH]; [reflexivity|].
  change (write_samples (s :: l))
    with (uint16 s mod 256 :: uint16 s / 256 :: write_samples l).
  cbn [read_samples]. rewrite IH.
  rewrite Uint16_bytes by apply uint16_range.
  rewrite int16_uint16 by exact Hs. reflexivity.
Qed.

(** ** The WAV encoder *)

Lemma writeWavToBuffer_layout buffer samples sr ch :
  writeWavToBuffer buffer samples sr ch =
  buffer ++ wav_header samples sr ch ++ write_samples samples.
Proof.
  unfold wav_header, writeWavToBuffer, le32, le16.
  change (bytes_of "RIFF") with [82; 73; 70; 70].
  change (bytes_of "WAVE") with [87; 65; 86; 69].
  change (bytes_of "fmt ") with [102; 109; 116; 32].
  change (bytes_of "data") with [100; 97; 116; 97].
  cbn [app firstn]. reflexivity.
Qed.

Lemma wav_header_length samples sr ch :
  length (wav_header samples sr ch) = 44%nat.
Proof.
  unfold wav_header, writeWavToBuffer, le32, le16.
  change (bytes_of "RIFF") with [82; 73; 70; 70].
  change (bytes_of "WAVE") with [87; 65; 86; 69].
  change (bytes_of "fmt ") with [102; 109; 116; 32].
  change (bytes_of "data") with [100; 97; 116; 97].
  cbn [app firstn length]. reflexivity.
Qed.

Lemma parse_wav_encoded samples sr ch :
  let n := uint32 (Z.of_nat (length (write_samples samples))) in
  parse_wav (writeWavToBuffer [] samples sr ch) =
  if n <=? Z.of_nat (length (write_samples samples)) then
    match read_samples (firstn (Z.to_nat n) (write_samples samples)) with
    | Some l =>
        Some {| riffSize := uint32 (36 + n);
                fmtSize := 16;
                audioFormat := 1;
                numChannels := uint16 ch;
                wavSampleRate := uint32 sr;
                wavByteRate :=
                  uint32 (int64 (int64 (sr * ch) * (bitsPerSample / 8)));
                wavBlockAlign := uint16 (int64 (ch * (bitsPerSample / 8)));
                wavBitsPerSample := 16;
                dataSize := n;
                wavSamples := l |}
    | None => None
    end
  else None.
Proof.
  intros n.
  unfold writeWavToBuffer, le32, le16.
  change (bytes_of "RIFF") with [82; 73; 70; 70].
  change (bytes_of "WAVE") with [87; 65; 86; 69].
  change (bytes_of "fmt ") with [102; 109; 116; 32].
  change (bytes_of "data") with [100; 97; 116; 97].
  cbn [app]. fold n.
  cbv beta iota delta [parse_wav].
  change (bytes_of "RIFF") with [82; 73; 70; 70].
  change (bytes_of "WAVE") with [87; 65; 86; 69].
  change (bytes_of "fmt ") with [102; 109; 116; 32].
  change (bytes_of "data") with [100; 97; 116; 97].
  replace (bytes_eqb [82; 73; 70; 70] [82; 73; 70; 70]) with true by reflexivity.
  replace (bytes_eqb [87; 65; 86; 69] [87; 65; 86; 69]) with true by reflexivity.
  replace (bytes_eqb [102; 109; 116; 32] [102; 109; 116; 32]) with true by reflexivity.
  replace (bytes_eqb [100; 97; 116; 97] [100; 97; 116; 97]) with true by reflexivity.
  cbn [andb].
  rewrite !uint32_idem, !uint16_idem.
  rewrite !Uint32_bytes by apply uint32_range.
  rewrite !Uint16_bytes by apply uint16_range.
  replace (uint32 n) with n by (symmetry; apply uint32_idem).
  reflexivity.
Qed.

Lemma parse_wav_encoded_dataSize samples sr ch w :
  parse_wav (writeWavToBuffer [] samples sr ch) = Some w ->
  dataSize w = uint32 (2 * Z.of_nat (length samples)).
Proof.
  rewrite parse_wav_encoded. cbv zeta.
  rewrite write_samples_length, Nat2Z.inj_mul.
  change (Z.of_nat 2) with 2.
  destruct (_ <=? _); [|discriminate].
  destruct (read_samples _); [|discriminate].
  intros H. injection H as <-. reflexivity.
Qed.

Lemma wav_data_size_2_31 samples sr ch :
  Z.of_nat (length samples) = 2 ^ 31 ->
  ~ (exists w,
       parse_wav (writeWavToBuffer [] samples sr ch) = Some w
       /\ dataSize w = 2 * Z.of_nat (length samples)).
Proof.
  intros Hlen [w [Hp Hd]].
  apply parse_wav_encoded_dataSize in Hp.
  rewrite Hp, Hlen in Hd.
  unfold uint32 in Hd. rewrite Z.mod_same in Hd by lia. lia.
Qed.

Lemma long_phrase_length : Z.of_nat (length long_phrase) = 2 ^ 31.
Proof.
  unfold long_phrase. rewrite repeat_length. apply Z2Nat.id. lia.
Qed.

(** C7, as stated, fails on a phrase of 2^31 samples: the size field of the
    "data" subchunk is a uint32, the 2^32 bytes of data are announced as 0
    bytes. *)
Lemma wav_data_size_wraps :
  ~ (exists w,
       parse_wav (writeWavToBuffer [] long_phrase sampleRate channels) = Some w
       /\ dataSize w = 2 * Z.of_nat (length long_phrase)).
Proof.
  apply wav_data_size_2_31. exact long_phrase_length.
Qed.

(** C7, amended. For every sequence of N < 2^31 samples (16-bit values) and
    every sample rate that fits 32 bits, the encoder writes a 44-byte header
    followed by the samples in order, two little-endian bytes each; reading
    the output back gives format code 1, one channel, 16 bits per sample,
    the sample rate, a data size of 2N and the N samples. *)
Theorem wav_round_trip (samples : list Z) (sr : Z) :
  Forall is_int16 samples ->
  Z.of_nat (length samples) < 2 ^ 31 ->
  0 <= sr < 2 ^ 32 ->
  let out := writeWavToBuffer [] samples sr channels in
  out = wav_header samples sr channels ++ flat_map le16 samples
  /\ length (wav_header samples sr channels) = 44%nat
  /\ exists w,
       parse_wav out = Some w
       /\ audioFormat w = 1
       /\ numChannels w = 1
       /\ wavBitsPerSample w = 16
       /\ wavSampleRate w = sr
       /\ dataSize w = 2 * Z.of_nat (length samples)
       /\ wavSamples w = samples.
Proof.
  intros Hs Hn Hsr out. subst out.
  split; [apply (writeWavToBuffer_layout [])|].
  split; [apply wav_header_length|].
  rewrite parse_wav_encoded. cbv zeta.
  assert (Hlen : Z.of_nat (length (write_samples samples))
                 = 2 * Z.of_nat (length samples)).
  { rewrite write_samples_length, Nat2Z.inj_mul. reflexivity. }
  rewrite Hlen.
  rewrite (uint32_id (2 * Z.of_nat (length samples))) by lia.
  rewrite Z.leb_refl.
  rewrite <- Hlen, Nat2Z.id, firstn_all.
  rewrite read_write_samples by exact Hs.
  eexists. split; [reflexivity|]. cbn.
  rewrite uint32_id by exact Hsr.
  repeat split; reflexivity.
Qed.

Lemma wav_round_trip_witness :
  exists w,
    parse_wav (writeWavToBuffer [] [0; 1; -1; 32767; -32768] sampleRate channels)
      = Some w
    /\ audioFormat w = 1 /\ numChannels w = 1 /\ wavBitsPerSample w = 16
    /\ wavSampleRate w = sampleRate /\ dataSize w = 10
    /\ wavSamples w = [0; 1; -1; 32767; -32768].
Proof.
  apply (wav_round_trip [0; 1; -1; 32767; -32768] sampleRate).
  - repeat constructor; unfold is_int16; lia.
  - simpl. lia.
  - unfold sampleRate. lia.
Defined.

(** ** The backend client *)

Lemma trimLeft_spaces ws s :
  forallb isSpace ws = true -> trimLeft (ws ++ s) = trimLeft s.
Proof.
  induction ws as [|r ws IH]; simpl; [reflexivity|].
  intros H. apply andb_true_iff in H as [Hr Hws].
  rewrite Hr. apply IH. exact Hws.
Qed.

Lemma forallb_rev {A} (f : A -> bool) l :
  forallb f (rev l) = forallb f l.
Proof.
  induction l as [|a l IH]; simpl; [reflexivity|].
  rewrite forallb_app, IH. simpl. rewrite andb_true_r. apply andb_comm.
Qed.

(** Whatever white space surrounds the sentinel, trimming leaves the
    sentinel; a leading line break is one such case. *)
Lemma TrimSpace_padded_sentinel l r :
  forallb isSpace l = true -> forallb isSpace r = true ->
  TrimSpace (l ++ BLANK_AUDIO ++ r) = BLANK_AUDIO.
Proof.
  intros Hl Hr. unfold TrimSpace, trimRight.
  rewrite trimLeft_spaces by exact Hl.
  change (trimLeft (BLANK_AUDIO ++ r)) with (BLANK_AUDIO ++ r).
  rewrite rev_app_distr.
  rewrite trimLeft_spaces by (rewrite forallb_rev; exact Hr).
  reflexivity.
Qed.

Example TrimSpace_leading_line_break :
  TrimSpace (newline :: BLANK_AUDIO) = BLANK_AUDIO.
Proof. reflexivity. Qed.

(** C6. When the backend answers 200 with a body that decodes, and the text
    field trimmed of white space is the sentinel [[BLANK_AUDIO]] (the test
    of the code also accepts it behind a line break), [transcribeChunk]
    returns the empty string and a nil error. *)
Theorem blank_audio_is_success (b : backend) (samples : list Z)
    (status : string) (body : list Z) (Text : gostring) :
  b (writeWavToBuffer [] samples sampleRate channels)
    = Response StatusOK status body (Json Text) ->
  TrimSpace Text = BLANK_AUDIO \/ TrimSpace Text = newline :: BLANK_AUDIO ->
  transcribeChunk b samples = Ok [].
Proof.
  intros Hb Ht. unfold transcribeChunk. rewrite Hb.
  change (negb (StatusOK =? StatusOK)) with false. cbv iota.
  destruct Ht as [-> | ->]; reflexivity.
Qed.

Lemma blank_audio_is_success_witness :
  transcribeChunk
    (fun _ => Response 200 "200 OK" [] (Json (newline :: BLANK_AUDIO ++ [space])))
    [12; -7] = Ok [].
Proof.
  apply (blank_audio_is_success _ [12; -7] "200 OK" []
           (newline :: BLANK_AUDIO ++ [space])).
  - reflexivity.
  - left. reflexivity.
Defined.

(** ** The audio channel *)

Lemma read_n_closed (n : nat) : forall c,
  closed c = true ->
  fst (read_n n c)
    = map (fun x => (x, true)) (firstn n (queue c))
      ++ repeat (zeroChunk, true) (n - length (queue c))
  /\ closed (snd (read_n n c)) = true
  /\ queue (snd (read_n n c)) = skipn n (queue c).
Proof.
  induction n as [|n IH]; intros c Hc.
  - simpl. auto.
  - destruct c as [q cl]. simpl in Hc. subst cl.
    destruct q as [|x q].
    + specialize (IH {| queue := []; closed := true |} eq_refl).
      cbn [read_n readNextChunk queue closed].
      destruct (read_n n {| queue := []; closed := true |}) as [rs c''].
      cbn [fst snd queue firstn map app length Nat.sub skipn] in *.
      destruct IH as [IH1 [IH2 IH3]].
      rewrite firstn_nil in IH1. rewrite skipn_nil in IH3.
      rewrite Nat.sub_0_r in IH1. cbn in IH1. subst rs.
      repeat split; assumption.
    + specialize (IH {| queue := q; closed := true |} eq_refl).
      cbn [read_n readNextChunk queue closed].
      destruct (read_n n {| queue := q; closed := true |}) as [rs c''].
      cbn [fst snd queue firstn map app length Nat.sub skipn] in *.
      destruct IH as [IH1 [IH2 IH3]]. subst rs.
      repeat split; assumption.
Qed.

(** C10, as stated, fails when frames are still buffered at the time the
    producer closes the channel: one full read followed by a failed read
    leaves a closed channel whose next receive is the buffered frame. *)
Lemma closed_channel_yields_buffered_frame :
  let c := fold_left apply_op
             (recordLoop true [ReadFull [1; 0; 255; 255] 5; ReadErr])
             make_chan in
  closed c = true
  /\ fst (readNextChunk c) = ({| timestamp := 5; data := [1; -1] |}, true)
  /\ fst (readNextChunk c) <> (zeroChunk, true).
Proof.
  cbv zeta. split; [reflexivity|]. split; [reflexivity|].
  cbn. intros H. discriminate H.
Qed.

(** C10, amended. Once the channel is closed, every call of [readNextChunk]
    returns ok = true: the calls first return the frames still buffered, in
    order, and from then on the zero-value AudioChunk, at every call; the
    channel stays closed, and the idle result (ok = false) never occurs. *)
Theorem readNextChunk_after_close (c : chan) (n : nat) :
  closed c = true ->
  fst (read_n n c)
    = map (fun x => (x, true)) (firstn n (queue c))
      ++ repeat (zeroChunk, true) (n - length (queue c))
  /\ Forall (fun r => snd r = true) (fst (read_n n c))
  /\ closed (snd (read_n n c)) = true.
Proof.
  intros Hc. destruct (read_n_closed n c Hc) as [H1 [H2 _]].
  split; [exact H1|]. split; [|exact H2].
  rewrite H1. apply Forall_app. split.
  - apply Forall_forall. intros r Hr.
    apply in_map_iff in Hr as [x [<- _]]. reflexivity.
  - apply Forall_forall. intros r Hr.
    apply repeat_spec in Hr. subst r. reflexivity.
Qed.

Lemma readNextChunk_after_close_witness :
  fst (read_n 3 {| queue := [{| timestamp := 5; data := [1; -1] |}];
                   closed := true |})
  = [({| timestamp := 5; data := [1; -1] |}, true);
     (zeroChunk, true); (zeroChunk, true)].
Proof.
  apply (readNextChunk_after_close
           {| queue := [{| timestamp := 5; data := [1; -1] |}];
              closed := true |} 3).
  reflexivity.
Defined.

(** ** The segmentation loop *)

Lemma flushes_print_lines lines : flushes (map EvPrintLine lines) = [].
Proof. induction lines as [|l lines IH]; simpl; auto. Qed.

Lemma typed_print_lines lines : typed (map EvPrintLine lines) = [].
Proof. induction lines as [|l lines IH]; simpl; auto. Qed.

Lemma not_in_print_lines b lines : ~ In (EvTranscribe b) (map EvPrintLine lines).
Proof.
  intros H. apply in_map_iff in H as [l [Hl _]]. discriminate Hl.
Qed.



(** Case analysis along the branches of [step]. *)
Ltac step_cases t s :=
  unfold step;
  destruct (ctxDone t) eqn:Hdone;
  [ unfold finalizeTranscript;
    destruct (0 <? Z.of_nat (length (phraseBuffer s))) eqn:Hlen;
    [ destruct (transcribeChunk (be t) (phraseBuffer s)) as [text|err0] eqn:Htr
    | ]
  | destruct (readNextChunk (fold_left apply_op (produced t) (audioChan s)))
      as [[chunk ok] ch] eqn:Hread;
    destruct ok; cbn [negb];
    [ destruct (isSilent (data chunk) energyThreshold) as [[|]|p] eqn:Hsil;
      [ destruct ((Z.of_nat (length (phraseBuffer s)) >? 0)
                  && (Since (now t)
                        (if IsZero (silenceStart s) then timestamp chunk
                         else silenceStart s) >? silenceDuration)) eqn:Hcond;
        [ destruct (transcribeChunk (be t) (phraseBuffer s))
            as [text|err0] eqn:Htr
        | ]
      | | ]
    | ] ];
  cbn [st vars events phraseBuffer transcriptLines silenceStart audioChan].

Lemma length_pos_nonempty {A} (l : list A) :
  (0 <? Z.of_nat (length l)) = true -> l <> [].
Proof. destruct l; [discriminate | discriminate]. Qed.

(** Every flush of an iteration takes the phrase buffer of that iteration. *)
Lemma step_flush_buffer t s b :
  In (EvTranscribe b) (events (step t s)) ->
  b = phraseBuffer s /\ phraseBuffer s <> [].
Proof.
  step_cases t s; intros Hin.
  - apply length_pos_nonempty in Hlen.
    cbn [app] in Hin.
    destruct Hin as [H|[H|[H|H]]]; try discriminate H.
    + injection H as <-. auto.
    + apply not_in_print_lines in H. contradiction.
  - apply length_pos_nonempty in Hlen.
    destruct Hin as [H|[]]. injection H as <-. auto.
  - destruct Hin as [H|H]; [discriminate H|].
    apply not_in_print_lines in H. contradiction.
  - apply andb_true_iff in Hcond as [Hc _].
    assert (Hne : phraseBuffer s <> [])
      by (apply length_pos_nonempty, Z.ltb_lt; apply Z.gtb_lt in Hc; lia).
    destruct Hin as [H|[H|[]]]; [|discriminate H]. injection H as <-. auto.
  - apply andb_true_iff in Hcond as [Hc _].
    assert (Hne : phraseBuffer s <> [])
      by (apply length_pos_nonempty, Z.ltb_lt; apply Z.gtb_lt in Hc; lia).
    destruct Hin as [H|[]]. injection H as <-. auto.
  - destruct Hin.
  - destruct Hin.
  - destruct Hin.
  - destruct Hin as [H|[]]. discriminate H.
Qed.





(** C4. When the context is done the loop calls [finalizeTranscript] and
    returns. If the phrase buffer is non-empty there is exactly one flush,
    of exactly the buffered samples, whatever the silence timer holds; if it
    is empty there is none. No later iteration takes place. *)
Theorem final_flush_on_cancellation (t : tick) (s : session) (ts : list tick) :
  ctxDone t = true ->
  flushes (events (step t s))
    = match phraseBuffer s with
      | [] => []
      | _ :: _ => [EvTranscribe (phraseBuffer s)]
      end
  /\ (exists err, st (step t s) = Returned err)
  /\ run_loop (t :: ts) s = step t s.
Proof.
  intros Hd.
  assert (Hst : exists err, st (step t s) = Returned err).
  { step_cases t s; try discriminate Hd; eauto. }
  split; [|split; [exact Hst|]].
  - step_cases t s; try discriminate Hd.
    + destruct (phraseBuffer s); [discriminate Hlen|].
      cbn [app flushes filter is_flush].
      fold (flushes (map EvPrintLine (transcriptLines s ++ [text]))).
      now rewrite flushes_print_lines.
    + destruct (phraseBuffer s); [discriminate Hlen|]. reflexivity.
    + destruct (phraseBuffer s); [|discriminate Hlen].
      cbn [flushes filter is_flush].
      fold (flushes (map EvPrintLine (transcriptLines s))).
      now rewrite flushes_print_lines.
  - destruct Hst as [err Hst]. cbn [run_loop]. now rewrite Hst.
Qed.

(** C9. If the transcription of a flush fails, in the loop or at
    finalization, [run] returns that error (wrapped by [fmt.Errorf]) in the
    same iteration: the request is the only event of the iteration, so
    nothing is typed or printed and nothing is submitted again; the
    transcript still holds exactly the lines it held before; no later
    iteration takes place. *)
Theorem transcription_error_ends_session
    (t : tick) (s : session) (ts : list tick) (b : list Z) (err : error) :
  In (EvTranscribe b) (events (step t s)) ->
  transcribeChunk (be t) b = Fail err ->
  b = phraseBuffer s
  /\ (exists prefix, st (step t s) = Returned (Some (Errorf prefix err)))
  /\ events (step t s) = [EvTranscribe b]
  /\ transcriptLines (vars (step t s)) = transcriptLines s
  /\ run_loop (t :: ts) s = step t s.
Proof.
  intros Hin Hfail.
  destruct (step_flush_buffer t s b Hin) as [-> _].
  split; [reflexivity|].
  assert (H : (exists prefix,
                 st (step t s) = Returned (Some (Errorf prefix err)))
              /\ events (step t s) = [EvTranscribe (phraseBuffer s)]
              /\ transcriptLines (vars (step t s)) = transcriptLines s).
  { revert Hin. step_cases t s; intros Hin; try congruence;
      try (injection Hfail as ->; now eauto);
      exfalso.
    - destruct Hin as [H|H]; [discriminate H|].
      exact (not_in_print_lines _ _ H).
    - destruct Hin.
    - destruct Hin.
    - destruct Hin.
    - destruct Hin as [H|[]]. discriminate H. }
  destruct H as [[prefix Hst] [He Hl]].
  repeat split; eauto.
  cbn [run_loop]. now rewrite Hst.
Qed.


Lemma final_flush_on_cancellation_witness :
  flushes (events (step (cancel_tick (5 * second) (reply "two"))
                     {| phraseBuffer := [1000; -1000];
                        transcriptLines := [runes_of "one"];
                        silenceStart := 4 * second;
                        audioChan := make_chan |}))
  = [EvTranscribe [1000; -1000]]
  /\ flushes (events (step (cancel_tick (5 * second) (reply "two"))
                        start_session)) = [].
Proof.
  split.
  - apply (final_flush_on_cancellation
             (cancel_tick (5 * second) (reply "two"))
             {| phraseBuffer := [1000; -1000];
                transcriptLines := [runes_of "one"];
                silenceStart := 4 * second;
                audioChan := make_chan |} []).
    reflexivity.
  - apply (final_flush_on_cancellation
             (cancel_tick (5 * second) (reply "two")) start_session []).
    reflexivity.
Defined.

Lemma transcription_error_ends_session_witness :
  st (step (frame_tick (quiet_frame (2 * second))
              (2 * second + 400 * millisecond) unreachable) mid_phrase)
    = Returned (Some (Errorf "transcription error"
                        (Errorf "executing request"
                           (ClientError "connection refused"))))
  /\ transcriptLines
       (vars (step (frame_tick (quiet_frame (2 * second))
                      (2 * second + 400 * millisecond) unreachable)
                mid_phrase))
     = [runes_of "one"].
Proof.
  destruct (transcription_error_ends_session
              (frame_tick (quiet_frame (2 * second))
                 (2 * second + 400 * millisecond) unreachable)
              mid_phrase [] [1000; -1000]
              (Errorf "executing request" (ClientError "connection refused")))
    as [_ [_ [_ [Hl _]]]].
  - left. reflexivity.
  - reflexivity.
  - split; [reflexivity | exact Hl].
Defined.

(** The final flush never reaches the text-injection sink; a flush inside
    the loop that succeeds is typed at once. *)
Lemma final_flush_types_nothing t s :
  ctxDone t = true -> typed (events (step t s)) = [].
Proof.
  intros Hd. step_cases t s; try discriminate Hd.
  - cbn [app typed flat_map].
    fold (typed (map EvPrintLine (transcriptLines s ++ [text]))).
    apply typed_print_lines.
  - reflexivity.
  - cbn [typed flat_map app].
    fold (typed (map EvPrintLine (transcriptLines s))).
    apply typed_print_lines.
Qed.

Lemma loop_flush_is_typed t s b txt :
  ctxDone t = false ->
  In (EvTranscribe b) (events (step t s)) ->
  transcribeChunk (be t) b = Ok txt ->
  events (step t s) = [EvTranscribe b; EvType txt]
  /\ transcriptLines (vars (step t s)) = transcriptLines s ++ [txt]
  /\ phraseBuffer (vars (step t s)) = []
  /\ silenceStart (vars (step t s)) = zeroTime.
Proof.
  intros Hd Hin Hok.
  destruct (step_flush_buffer t s b Hin) as [-> _].
  revert Hin. step_cases t s; try discriminate Hd; intros Hin;
    try (injection Hok as ->; now auto); try discriminate Hok;
    exfalso.
  - destruct Hin.
  - destruct Hin.
  - destruct Hin.
  - destruct Hin as [H|[]]. discriminate H.
Qed.

(** C5. A session that hears one Speech frame and is then cancelled: the
    final flush transcribes the phrase and prints it on standard output, and
    nothing is forwarded to the text-injection sink. The flush inside the
    loop, for the same phrase, types the text. *)
Theorem final_flush_is_not_typed :
  let o := run [frame_tick (speech_frame second) second (reply "hello");
                cancel_tick (2 * second) (reply "hello")] in
  st o = Returned None
  /\ events o = [EvTranscribe [1000; -1000]; EvPrintFinal (runes_of "hello");
                 EvPrintHeader; EvPrintLine (runes_of "hello")]
  /\ typed (events o) = []
  /\ events (run [frame_tick (speech_frame second) second (reply "hello");
                  frame_tick (quiet_frame (2 * second))
                    (2 * second + 400 * millisecond) (reply "hello")])
     = [EvTranscribe [1000; -1000]; EvType (runes_of "hello")].
Proof. cbv zeta. repeat split; vm_compute; reflexivity. Qed.

(** The empty frame reaches [isSilent]: when the capture command cannot be
    started, the producer closes the channel, the next receive yields the
    zero-value frame, and the loop panics instead of idling. *)
Lemma run_panics_after_close :
  st (run [{| produced := recordLoop false []; ctxDone := false;
              now := second; be := reply "x" |}])
  = Panicked DivideByZero.
Proof. reflexivity. Qed.

Lemma step_closed_and_drained t s :
  ctxDone t = false ->
  queue (fold_left apply_op (produced t) (audioChan s)) = [] ->
  closed (fold_left apply_op (produced t) (audioChan s)) = true ->
  st (step t s) = Panicked DivideByZero.
Proof.
  intros Hd Hq Hc. unfold step, readNextChunk. rewrite Hd, Hq, Hc.
  reflexivity.
Qed.

(** ** The overlapping splitter *)

Lemma ceil_div_bounds a b :
  0 < b -> (ceil_div a b - 1) * b < a <= ceil_div a b * b.
Proof.
  intros Hb. unfold ceil_div.
  pose proof (Z.div_mod (a + b - 1) b ltac:(lia)) as Hdm.
  pose proof (Z.mod_pos_bound (a + b - 1) b Hb) as Hm.
  nia.
Qed.

Lemma ceil_div_pos a b : 0 < b -> 0 < a -> 0 < ceil_div a b.
Proof.
  intros Hb Ha. pose proof (ceil_div_bounds a b Hb). nia.
Qed.

Section Splitter.

Variables (W Ov : Z) (be : nat -> backend) (samples : list Z).
Variable texts : nat -> gostring.

Let L := Z.of_nat (length samples).
Let n := Z.to_nat (window_count W Ov L).

Hypothesis overlap_lt_window : 0 <= Ov < W.
Hypothesis length_fits : L + W < 2 ^ 63.
Hypothesis nonempty : 0 < L.

(** Every request of the loop succeeds; [texts k] is the text of the
    [k]-th. *)
Hypothesis all_succeed :
  forall k, (k < n)%nat ->
    transcribeChunk (be k)
      (slice samples (fst (window W Ov L k)) (snd (window W Ov L k)))
    = Ok (texts k).

Lemma window_count_bounds :
  (Z.of_nat n - 1) * (W - Ov) < L <= Z.of_nat n * (W - Ov).
Proof.
  unfold n, window_count.
  pose proof (ceil_div_pos L (W - Ov) ltac:(lia) nonempty).
  rewrite Z2Nat.id by lia. apply ceil_div_bounds. lia.
Qed.

Lemma chunk_loop_from (m : nat) : forall (k fuel : nat) (acc : gostring),
  (k + m = n)%nat -> (m < fuel)%nat ->
  chunk_loop fuel W Ov be samples k (Z.of_nat k * (W - Ov)) acc =
  Some (map (window W Ov L) (seq k m),
        Ok (acc ++ concat (map (fun i => texts i ++ [space]) (seq k m)))).
Proof.
  pose proof window_count_bounds as Hn.
  induction m as [|m IH]; intros k fuel acc Hk Hfuel.
  - destruct fuel as [|fuel]; [lia|]. cbn [chunk_loop seq map concat].
    fold L. rewrite app_nil_r.
    destruct (Z.ltb_spec (Z.of_nat k * (W - Ov)) L) as [Hlt|_]; [|reflexivity].
    exfalso. replace k with n in Hlt by lia. lia.
  - destruct fuel as [|fuel]; [lia|]. cbn [chunk_loop seq map concat].
    fold L.
    set (start := Z.of_nat k * (W - Ov)).
    assert (Hstart : 0 <= start < L).
    { unfold start. split; [nia|].
      assert (Z.of_nat k <= Z.of_nat n - 1) by lia. nia. }
    destruct (Z.ltb_spec start L) as [_|Hge]; [|lia].
    rewrite (int64_id (start + W)) by (unfold is_int64; lia).
    assert (Hend : (if start + W >? L then L else start + W)
                   = Z.min (start + W) L).
    { destruct (Z.gtb_spec (start + W) L); lia. }
    rewrite Hend.
    change (start, Z.min (start + W) L) with (window W Ov L k).
    assert (Hreq := all_succeed k ltac:(lia)).
    cbn [fst snd window] in Hreq. fold start in Hreq.
    change (fst (window W Ov L k)) with start.
    rewrite Hreq.
    rewrite (int64_id (W - Ov)) by (unfold is_int64; lia).
    rewrite (int64_id (start + (W - Ov))) by (unfold is_int64; lia).
    replace (start + (W - Ov)) with (Z.of_nat (S k) * (W - Ov))
      by (unfold start; lia).
    rewrite (IH (S k) fuel) by lia.
    rewrite <- !app_assoc. reflexivity.
Qed.


End Splitter.




(** ** The keyboard *)

Lemma punctuation_identity keysym r :
  lookup keysym punctuation = Some r -> r = keysym /\ 0x20 <= keysym < 0x100.
Proof.
  unfold punctuation. cbn [lookup].
  repeat match goal with
         | |- context [keysym =? ?c] =>
             destruct (Z.eqb_spec keysym c) as [->|_];
             [intros H; injection H as <-; lia|]
         end.
  discriminate.
Qed.

Lemma int32_id z : - 2 ^ 31 <= z < 2 ^ 31 -> int32 z = z.
Proof.
  intros H. unfold int32. rewrite Z.mod_small by lia. lia.
Qed.

Lemma keysymToRune_eq (keysym : Z) :
  0 <= keysym < 2 ^ 32 ->
  keysymToRune keysym =
    if keysym <? 0x100 then keysym
    else if keysym >=? 0x1000000 then int32 (keysym - 0x1000000)
    else 0.
Proof.
  intros Hk. unfold keysymToRune.
  destruct (lookup keysym punctuation) as [r|] eqn:Hp.
  - apply punctuation_identity in Hp as [-> Hr].
    destruct (Z.ltb_spec keysym 0x100); [reflexivity | lia].
  - destruct (Z.ltb_spec keysym 0x100) as [Hlt|Hge].
    + apply int32_id. lia.
    + destruct (Z.geb_spec keysym 0x1000000) as [Hu|Hm].
      * rewrite uint32_id by lia. reflexivity.
      * destruct (Z.geb_spec keysym 0x20); [|reflexivity].
        destruct (Z.leb_spec keysym 0x7e); [lia | reflexivity].
Qed.


(** X1. The function has three outcomes only: a keysym below 0x100 is its own
    rune (the punctuation table changes nothing), a keysym from 0x1000000
    on is the code point behind the offset, as an int32, and every keysym in
    between has no rune; the last test of the function is never reached. *)
Theorem keysymToRune_cases (keysym : Z) :
  0 <= keysym < 2 ^ 32 ->
  keysymToRune keysym =
    if keysym <? 0x100 then keysym
    else if keysym >=? 0x1000000 then int32 (keysym - 0x1000000)
    else 0.
Proof. exact (keysymToRune_eq keysym). Qed.

Lemma keysymToRune_cases_witness :
  keysymToRune 0x3f = 0x3f /\ keysymToRune 0xff0d = 0
  /\ keysymToRune 0x10020ac = 0x20ac.
Proof.
  split; [|split].
  - apply (keysymToRune_cases 0x3f). lia.
  - apply (keysymToRune_cases 0xff0d). lia.
  - apply (keysymToRune_cases 0x10020ac). lia.
Defined.

(** X2. The keysyms without a rune are 0 and the range 0x100 .. 0x1000000, both
    ends included: these are the keysyms [initKeymap] leaves out. *)
Theorem keysymToRune_zero (keysym : Z) :
  0 <= keysym < 2 ^ 32 ->
  (keysymToRune keysym = 0
   <-> keysym = 0 \/ 0x100 <= keysym <= 0x1000000).
Proof.
  intros Hk. rewrite keysymToRune_eq by exact Hk.
  destruct (Z.ltb_spec keysym 0x100) as [Hlt|Hge]; [lia|].
  destruct (Z.geb_spec keysym 0x1000000) as [Hu|Hm]; [|lia].
  unfold int32.
  destruct (Z.ltb_spec (keysym - 0x1000000) (2 ^ 31)) as [Hs|Hb].
  - rewrite Z.mod_small by lia. lia.
  - replace (keysym - 0x1000000 + 2 ^ 31)
      with (keysym - 0x1000000 - 2 ^ 31 + 1 * 2 ^ 32) by lia.
    rewrite Z.mod_add by lia. rewrite Z.mod_small by lia. lia.
Qed.

Lemma keysymToRune_zero_witness :
  keysymToRune 0x1000000 = 0 /\ keysymToRune 0xffe1 = 0.
Proof.
  split.
  - apply (keysymToRune_zero 0x1000000); lia.
  - apply (keysymToRune_zero 0xffe1); lia.
Defined.

Lemma last_write_iff (W W' : Z -> Prop) entry :
  (forall k, W k <-> W' k) -> last_write W entry -> last_write W' entry.
Proof.
  intros HW. destruct entry as [kc|]; cbn.
  - intros [keycode [Hkc [Hw Hlast]]]. exists keycode.
    split; [exact Hkc|]. split; [now apply HW|].
    intros k' Hlt Hk'. apply (Hlast k' Hlt). now apply HW.
  - intros Hn k' Hk'. apply (Hn k'). now apply HW.
Qed.

Section InitKeymap.

Variables (MinKeycode : Z) (mapping : KeyboardMapping).

Let nOff := Z.to_nat (KeysymsPerKeycode mapping).

Lemma written_next K j r keycode :
  written MinKeycode mapping K (S j) r keycode
  <-> written MinKeycode mapping K j r keycode
      \/ (keycode = K /\ MinKeycode <= K
          /\ provides MinKeycode mapping K r j).
Proof.
  unfold written. split.
  - intros [Hmin [o [Hp [Hlt|[-> Ho]]]]].
    + left. eauto.
    + destruct (Nat.eq_dec o j) as [->|Hne].
      * right. auto.
      * left. split; [exact Hmin|]. exists o. split; [exact Hp|].
        right. split; [reflexivity | lia].
  - intros [[Hmin [o [Hp [Hlt|[-> Ho]]]]] | [-> [Hmin Hp]]].
    + split; [exact Hmin|]. exists o. auto.
    + split; [exact Hmin|]. exists o. split; [exact Hp|]. right. split; [reflexivity | lia].
    + split; [exact Hmin|]. exists j. split; [exact Hp|]. right. split; [reflexivity | lia].
Qed.

Lemma keymap_offset_inv K j m :
  MinKeycode <= K -> (j < nOff)%nat ->
  keymap_inv MinKeycode mapping K j m ->
  keymap_inv MinKeycode mapping K (S j)
    (keymap_offset MinKeycode mapping K m j).
Proof.
  intros HK Hj Hinv.
  set (idx := (K - MinKeycode) * KeysymsPerKeycode mapping + Z.of_nat j).
  set (keysym := nth (Z.to_nat idx) (Keysyms mapping) 0).
  assert (Hnone : (idx >=? Z.of_nat (length (Keysyms mapping))) = true
                  \/ keysym = 0 \/ keysymToRune keysym = 0 ->
                  forall r, ~ provides MinKeycode mapping K r j).
  { intros Hc r [_ [H1 [H2 [H3 H4]]]]. fold idx in H1, H2, H3.
    fold keysym in H2, H3.
    destruct Hc as [Hc|[Hc|Hc]].
    - apply Z.geb_le in Hc. lia.
    - contradiction.
    - congruence. }
  assert (Hkeep : (forall r, ~ provides MinKeycode mapping K r j) ->
                  keymap_inv MinKeycode mapping K (S j) m).
  { intros Hno r. apply (last_write_iff (written MinKeycode mapping K j r)).
    - intros k. rewrite written_next. split; [auto|].
      intros [H|[_ [_ H]]]; [exact H|]. exfalso. exact (Hno r H).
    - apply Hinv. }
  unfold keymap_offset. fold idx. fold keysym.
  destruct (idx >=? Z.of_nat (length (Keysyms mapping))) eqn:Hidx;
    [apply Hkeep, Hnone; auto|].
  destruct (Z.eqb_spec keysym 0) as [Hz|Hnz]; [apply Hkeep, Hnone; auto|].
  destruct (Z.eqb_spec (keysymToRune keysym) 0) as [Hr0|Hr0]; cbn [negb];
    [apply Hkeep, Hnone; auto|].
  assert (Hp : provides MinKeycode mapping K (keysymToRune keysym) j).
  { unfold provides. fold idx. fold keysym.
    destruct (Z.geb_spec idx (Z.of_nat (length (Keysyms mapping))));
      [discriminate|].
    repeat split; auto; lia. }
  intros r. cbn [lookup].
  destruct (Z.eqb_spec r (keysymToRune keysym)) as [->|Hne].
  - cbn. exists K. split; [reflexivity|]. split.
    + apply written_next. right. auto.
    + intros k' Hlt [_ [o [_ [H|[H _]]]]]; lia.
  - apply (last_write_iff (written MinKeycode mapping K j r)).
    + intros k. rewrite written_next. split; [auto|].
      intros [H|[_ [_ [_ [_ [_ [H _]]]]]]]; [exact H|].
      fold idx in H. fold keysym in H. congruence.
    + apply Hinv.
Qed.

Lemma keymap_offsets_inv K (n : nat) : forall j m,
  MinKeycode <= K -> (j + n <= nOff)%nat ->
  keymap_inv MinKeycode mapping K j m ->
  keymap_inv MinKeycode mapping K (j + n)
    (fold_left (keymap_offset MinKeycode mapping K) (seq j n) m).
Proof.
  induction n as [|n IH]; intros j m HK Hn Hinv.
  - rewrite Nat.add_0_r. exact Hinv.
  - cbn [seq fold_left]. replace (j + S n)%nat with (S j + n)%nat by lia.
    apply IH; [exact HK | lia |].
    apply keymap_offset_inv; [exact HK | lia | exact Hinv].
Qed.

Lemma keymap_keycode_inv K m :
  MinKeycode <= K ->
  keymap_inv MinKeycode mapping K 0 m ->
  keymap_inv MinKeycode mapping (K + 1) 0
    (keymap_keycode MinKeycode mapping m K).
Proof.
  intros HK Hinv. unfold keymap_keycode. fold nOff.
  pose proof (keymap_offsets_inv K nOff 0 m HK (le_n _) Hinv) as H.
  cbn [Nat.add] in H.
  intros r. apply (last_write_iff (written MinKeycode mapping K nOff r));
    [|apply H].
  intros k. unfold written. split.
  - intros [Hmin [o [Hp Hc]]]. split; [exact Hmin|]. exists o.
    split; [exact Hp|]. left. lia.
  - intros [Hmin [o [Hp Hc]]]. split; [exact Hmin|]. exists o.
    split; [exact Hp|].
    assert (Ho : (o < nOff)%nat) by (destruct Hp as [Ho _]; exact Ho).
    destruct (Z.eq_dec k K) as [->|Hne];
      [right; split; [reflexivity | exact Ho] | left; lia].
Qed.

Lemma keymap_keycodes_inv (n : nat) : forall i m,
  keymap_inv MinKeycode mapping (MinKeycode + Z.of_nat i) 0 m ->
  keymap_inv MinKeycode mapping (MinKeycode + Z.of_nat (i + n)) 0
    (fold_left (keymap_keycode MinKeycode mapping)
       (map (fun i => MinKeycode + Z.of_nat i) (seq i n)) m).
Proof.
  induction n as [|n IH]; intros i m Hinv.
  - rewrite Nat.add_0_r. exact Hinv.
  - cbn [seq map fold_left]. replace (i + S n)%nat with (S i + n)%nat by lia.
    apply IH. replace (MinKeycode + Z.of_nat (S i))
      with (MinKeycode + Z.of_nat i + 1) by lia.
    apply keymap_keycode_inv; [lia | exact Hinv].
Qed.

Lemma initKeymap_inv MaxKeycode m :
  initKeymap MinKeycode MaxKeycode (Ok mapping) = Ok m ->
  forall r,
    last_write
      (fun keycode => MinKeycode <= keycode <= MaxKeycode
                      /\ exists offset,
                           provides MinKeycode mapping keycode r offset)
      (lookup r m).
Proof.
  intros H r. cbn [initKeymap] in H. injection H as <-.
  unfold keycodes.
  pose proof (keymap_keycodes_inv
                (Z.to_nat (MaxKeycode - MinKeycode + 1)) 0 []) as Hinv.
  cbn [Nat.add] in Hinv.
  eapply last_write_iff; [|apply Hinv].
  - intros k. unfold written. split.
    + intros [Hmin [o [Hp [Hlt|[_ Ho]]]]]; [|lia].
      split; [lia|]. exists o. exact Hp.
    + intros [Hr [o Hp]]. split; [lia|]. exists o. split; [exact Hp|].
      left. lia.
  - intros r'. cbn. intros k' [Hmin [o [_ [Hlt|[_ Ho]]]]]; lia.
Qed.

End InitKeymap.

Lemma byte_id z : 0 <= z <= 255 -> byte z = z.
Proof. intros H. unfold byte. apply Z.mod_small. lia. Qed.

(** X3. An entry of the keymap built by [initKeymap] is a keycode of the range
    that has a keysym, not 0, whose rune is the key of the entry; when
    several keycodes give the same rune, the entry is the highest of them. *)
Theorem initKeymap_entry (MinKeycode MaxKeycode : Z)
    (mapping : KeyboardMapping) (m : keymap) (r : rune) (kc : Z) :
  0 <= MinKeycode -> MaxKeycode <= 255 ->
  initKeymap MinKeycode MaxKeycode (Ok mapping) = Ok m ->
  lookup r m = Some kc ->
  MinKeycode <= kc <= MaxKeycode
  /\ (exists offset, provides MinKeycode mapping kc r offset)
  /\ (forall k' offset',
        kc < k' <= MaxKeycode -> ~ provides MinKeycode mapping k' r offset').
Proof.
  intros Hmin Hmax Hinit Hl.
  pose proof (initKeymap_inv MinKeycode mapping MaxKeycode m Hinit r) as H.
  rewrite Hl in H. cbn in H.
  destruct H as [keycode [Hkc [[Hr Hp] Hlast]]].
  rewrite byte_id in Hkc by lia. subst kc.
  split; [exact Hr|]. split; [exact Hp|].
  intros k' o' Hk' Hp'. apply (Hlast k'); [lia|]. split; [lia|]. eauto.
Qed.

Lemma initKeymap_entry_witness :
  8 <= 10 <= 10
  /\ (exists offset, provides 8 sample_mapping 10 0x61 offset)
  /\ (forall k' offset',
        10 < k' <= 10 -> ~ provides 8 sample_mapping k' 0x61 offset').
Proof.
  apply (initKeymap_entry 8 10 sample_mapping sample_keymap 0x61 10).
  - lia.
  - lia.
  - reflexivity.
  - reflexivity.
Defined.

(** X4. Every rune that some keysym of a keycode of the range gives has an entry
    in the keymap, at that keycode or at a higher one. *)
Theorem initKeymap_complete (MinKeycode MaxKeycode : Z)
    (mapping : KeyboardMapping) (m : keymap) (r : rune)
    (keycode : Z) (offset : nat) :
  0 <= MinKeycode -> MaxKeycode <= 255 ->
  initKeymap MinKeycode MaxKeycode (Ok mapping) = Ok m ->
  MinKeycode <= keycode <= MaxKeycode ->
  provides MinKeycode mapping keycode r offset ->
  exists kc, lookup r m = Some kc /\ keycode <= kc <= MaxKeycode.
Proof.
  intros Hmin Hmax Hinit Hk Hp.
  pose proof (initKeymap_inv MinKeycode mapping MaxKeycode m Hinit r) as H.
  destruct (lookup r m) as [kc|]; cbn in H.
  - destruct H as [k0 [Hkc [[Hr _] Hlast]]].
    rewrite byte_id in Hkc by lia. subst kc.
    exists k0. split; [reflexivity|].
    destruct (Z.le_gt_cases keycode k0) as [Hle|Hgt]; [lia|].
    exfalso. apply (Hlast keycode Hgt). eauto.
  - exfalso. apply (H keycode). eauto.
Qed.

Lemma initKeymap_complete_witness :
  exists kc, lookup 0x61 sample_keymap = Some kc /\ 8 <= kc <= 10.
Proof.
  apply (initKeymap_complete 8 10 sample_mapping sample_keymap 0x61 8 0).
  - lia.
  - lia.
  - reflexivity.
  - lia.
  - unfold provides. cbn. repeat split; try lia; discriminate.
Defined.

(** The server's failure is the failure of [initKeymap]; an empty range of
    keycodes gives an empty keymap. *)
Example initKeymap_edges :
  initKeymap 8 255 (Fail (ClientError "closed"))
    = Fail (Errorf "getting keyboard mapping" (ClientError "closed"))
  /\ initKeymap 10 8 (Ok sample_mapping) = Ok [].
Proof. split; reflexivity. Qed.




(** X6. Characters without a keycode are skipped: the inputs sent for a text
    are those sent for the text without its unmapped characters; the closing
    space is sent all the same. *)
Theorem typeText_skips_unmapped (m : keymap) (text : gostring) :
  typeText m text = typeText m (filter (mapped m) text).
Proof.
  unfold typeText. f_equal.
  induction text as [|c text IH]; [reflexivity|].
  cbn [flat_map filter]. unfold mapped at 1, type_char at 1.
  destruct (lookup c m) as [k|] eqn:Hc.
  - cbn [flat_map]. unfold type_char at 2. rewrite Hc. now rewrite IH.
  - exact IH.
Qed.

(** ** The backend client, continued *)

Lemma trimLeft_head s r s' : trimLeft s = r :: s' -> isSpace r = false.
Proof.
  induction s as [|a s IH]; cbn; [discriminate|].
  destruct (isSpace a) eqn:Ha; [exact IH|].
  intros H. injection H as <- _. exact Ha.
Qed.

Lemma trimLeft_suffix s : exists ws, s = ws ++ trimLeft s.
Proof.
  induction s as [|a s [ws IH]]; [exists []; reflexivity|].
  cbn. destruct (isSpace a).
  - exists (a :: ws). cbn. now rewrite <- IH.
  - exists []. reflexivity.
Qed.

Lemma trimRight_prefix s : exists ws, s = trimRight s ++ ws.
Proof.
  destruct (trimLeft_suffix (rev s)) as [ws H].
  exists (rev ws). unfold trimRight.
  rewrite <- rev_app_distr, <- H. now rewrite rev_involutive.
Qed.

Lemma TrimSpace_trimmed s : trimmedb (TrimSpace s) = true.
Proof.
  unfold trimmedb. apply andb_true_iff. split.
  - destruct (TrimSpace s) as [|r s'] eqn:E; [reflexivity|].
    unfold TrimSpace in E.
    destruct (trimRight_prefix (trimLeft s)) as [ws H].
    rewrite E in H. cbn in H.
    now rewrite (trimLeft_head s r _ H).
  - unfold TrimSpace, trimRight. rewrite rev_involutive.
    destruct (trimLeft (rev (trimLeft s))) as [|r s'] eqn:E; [reflexivity|].
    now rewrite (trimLeft_head _ _ _ E).
Qed.

Lemma gostring_eqb_false a b : gostring_eqb a b = false -> a <> b.
Proof.
  unfold gostring_eqb. destruct (list_eq_dec Z.eq_dec a b); [discriminate|auto].
Qed.

(** X8. A transcription succeeds exactly when the backend answers 200 with a
    body that decodes: a response with another status is an error even when
    its body is a well-formed answer. *)
Theorem transcribeChunk_succeeds_iff (b : backend) (samples : list Z) :
  (exists text, transcribeChunk b samples = Ok text)
  <-> exists status body Text,
        b (writeWavToBuffer [] samples sampleRate channels)
          = Response StatusOK status body (Json Text).
Proof.
  unfold transcribeChunk.
  destruct (b (writeWavToBuffer [] samples sampleRate channels))
    as [msg|msg|code status body dec].
  - split; [intros [text H]; discriminate H|].
    intros [s [bd [T H]]]. discriminate H.
  - split; [intros [text H]; discriminate H|].
    intros [s [bd [T H]]]. discriminate H.
  - destruct (Z.eqb_spec code StatusOK) as [->|Hne]; cbn [negb].
    + destruct dec as [Text|msg].
      * split; [eauto|]. intros _.
        destruct (_ || _); eauto.
      * split; [intros [text H]; discriminate H|].
        intros [s [bd [T H]]]. discriminate H.
    + split; [intros [text H]; discriminate H|].
      intros [s [bd [T H]]]. injection H as H _ _ _. contradiction.
Qed.

(** X9. The text of a successful transcription has no white space at either
    end and is never the blank-audio sentinel. *)
Theorem transcribeChunk_text_is_clean (b : backend) (samples : list Z)
    (text : gostring) :
  transcribeChunk b samples = Ok text ->
  trimmedb text = true
  /\ text <> BLANK_AUDIO
  /\ text <> newline :: BLANK_AUDIO.
Proof.
  unfold transcribeChunk.
  destruct (b (writeWavToBuffer [] samples sampleRate channels))
    as [msg|msg|code status body dec]; try discriminate.
  destruct (negb (code =? StatusOK)); [discriminate|].
  destruct dec as [Text|msg]; [|discriminate].
  destruct (gostring_eqb (TrimSpace Text) BLANK_AUDIO) eqn:E1;
    cbn [orb].
  - intros H. injection H as <-. repeat split; discriminate.
  - destruct (gostring_eqb (TrimSpace Text) (newline :: BLANK_AUDIO)) eqn:E2.
    + intros H. injection H as <-. repeat split; discriminate.
    + intros H. injection H as <-.
      split; [apply TrimSpace_trimmed|].
      split; apply gostring_eqb_false; assumption.
Qed.

Lemma transcribeChunk_text_is_clean_witness :
  trimmedb (runes_of "hello world") = true
  /\ runes_of "hello world" <> BLANK_AUDIO
  /\ runes_of "hello world" <> newline :: BLANK_AUDIO.
Proof.
  apply (transcribeChunk_text_is_clean
           (fun _ => Response 200 "200 OK" []
                       (Json (runes_of "  hello world ")))
           [5; -5] (runes_of "hello world")).
  reflexivity.
Defined.

(** X7. A flush inside the loop whose transcription is blank audio goes through
    like any other: an empty line is appended to the transcript and is
    typed, and typing the empty text still presses the space key when the
    keymap has one. *)
Theorem blank_audio_flush_types_space (t : tick) (s : session) (m : keymap)
    (b : list Z) (status : string) (body : list Z) (Text : gostring) :
  ctxDone t = false ->
  In (EvTranscribe b) (events (step t s)) ->
  be t (writeWavToBuffer [] b sampleRate channels)
    = Response StatusOK status body (Json Text) ->
  TrimSpace Text = BLANK_AUDIO ->
  events (step t s) = [EvTranscribe b; EvType []]
  /\ transcriptLines (vars (step t s)) = transcriptLines s ++ [[]]
  /\ pressed (sink_inputs m (events (step t s)))
     = match lookup 32 m with Some spaceCode => [spaceCode] | None => [] end.
Proof.
  intros Hd Hin Hb Ht.
  assert (Hok : transcribeChunk (be t) b = Ok []).
  { unfold transcribeChunk. rewrite Hb.
    change (negb (StatusOK =? StatusOK)) with false. cbv iota.
    rewrite Ht. reflexivity. }
  destruct (loop_flush_is_typed t s b [] Hd Hin Hok) as [He [Hl _]].
  split; [exact He|]. split; [exact Hl|].
  rewrite He. cbn [sink_inputs flat_map app typeText].
  destruct (lookup 32 m); reflexivity.
Qed.

Lemma blank_audio_flush_types_space_witness :
  pressed (sink_inputs sample_keymap
             (events (step (frame_tick (quiet_frame (2 * second))
                              (2 * second + 400 * millisecond)
                              (reply "[BLANK_AUDIO]"))
                        mid_phrase)))
  = [9].
Proof.
  apply (blank_audio_flush_types_space
           (frame_tick (quiet_frame (2 * second))
              (2 * second + 400 * millisecond) (reply "[BLANK_AUDIO]"))
           mid_phrase sample_keymap [1000; -1000] "200 OK" []
           (runes_of "[BLANK_AUDIO]")).
  - reflexivity.
  - left. reflexivity.
  - reflexivity.
  - reflexivity.
Defined.

(** ** The audio channel and the producer, continued *)

Lemma send_all fs : forall c,
  fold_left apply_op (map Send fs) c
  = {| queue := queue c ++ fs; closed := closed c |}.
Proof.
  induction fs as [|f fs IH]; intros [q cl]; cbn.
  - now rewrite app_nil_r.
  - rewrite IH. cbn. now rewrite <- app_assoc.
Qed.

Lemma read_n_open (n : nat) : forall q,
  read_n n {| queue := q; closed := false |}
  = (map (fun x => (x, true)) (firstn n q)
       ++ repeat (zeroChunk, false) (n - length q),
     {| queue := skipn n q; closed := false |}).
Proof.
  induction n as [|n IH]; intros q.
  - reflexivity.
  - destruct q as [|x q]; cbn [read_n readNextChunk queue closed].
    + rewrite IH. cbn. rewrite firstn_nil, skipn_nil, Nat.sub_0_r.
      reflexivity.
    + rewrite IH. reflexivity.
Qed.

(** X10. The channel is first in, first out: the frames sent to a fresh channel
    are received in the order they were sent, each with ok = true; after
    them every receive reports the idle condition (ok = false) and leaves
    the open channel empty. *)
Theorem channel_fifo (fs : list AudioChunk) (n : nat) :
  read_n (length fs + n) (fold_left apply_op (map Send fs) make_chan)
  = (map (fun x => (x, true)) fs ++ repeat (zeroChunk, false) n, make_chan).
Proof.
  rewrite send_all. cbn [queue closed make_chan app].
  rewrite read_n_open.
  rewrite firstn_all2 by lia.
  rewrite skipn_all2 by lia.
  replace (length fs + n - length fs)%nat with n by lia.
  reflexivity.
Qed.

(** X11. [recordLoop] sends one frame per full read, in order, until the first
    read that fails; it then closes the channel, as its last operation, and
    whatever could have been read afterwards is never sent. When the capture
    command cannot be started, closing is all it does. *)
Theorem recordLoop_stops_at_first_error
    (pre : list (list Z * Time)) (rest : list read) :
  recordLoop true (map full pre ++ ReadErr :: rest)
    = map Send (map frame_of pre) ++ [Close]
  /\ recordLoop true (map full pre) = map Send (map frame_of pre)
  /\ recordLoop false (map full pre ++ rest) = [Close].
Proof.
  split; [|split; [|reflexivity]].
  - induction pre as [|[bytes at_] pre IH]; [reflexivity|].
    cbn in *. now rewrite IH.
  - induction pre as [|[bytes at_] pre IH]; [reflexivity|].
    cbn in *. now rewrite IH.
Qed.

Lemma uint16_int16 u : 0 <= u < 2 ^ 16 -> uint16 (int16 u) = u.
Proof.
  intros H. unfold uint16, int16.
  destruct (Z.ltb_spec u (2 ^ 15)).
  - rewrite (Z.mod_small (u + 2 ^ 15)) by lia.
    replace (u + 2 ^ 15 - 2 ^ 15) with u by lia. apply Z.mod_small. lia.
  - replace (u + 2 ^ 15) with (u - 2 ^ 15 + 1 * 2 ^ 16) by lia.
    rewrite Z.mod_add by lia. rewrite (Z.mod_small (u - 2 ^ 15)) by lia.
    replace (u - 2 ^ 15 - 2 ^ 15) with (u + (-1) * 2 ^ 16) by lia.
    rewrite Z.mod_add by lia. apply Z.mod_small. lia.
Qed.

Lemma int16_range z : is_int16 (int16 z).
Proof.
  unfold is_int16, int16.
  pose proof (Z.mod_pos_bound (z + 2 ^ 15) (2 ^ 16) ltac:(lia)). lia.
Qed.

Lemma le16_decode b0 b1 :
  is_byte b0 -> is_byte b1 -> le16 (int16 (Uint16 b0 b1)) = [b0; b1].
Proof.
  unfold is_byte, le16, Uint16. intros H0 H1.
  rewrite uint16_int16 by lia.
  change (2 ^ 8) with 256.
  replace (b0 + 256 * b1) with (b0 + b1 * 256) by lia.
  rewrite Z.mod_add, Z.div_add by lia.
  rewrite Z.mod_small, Z.div_small by lia.
  reflexivity.
Qed.

Lemma decode_pairs_even (n : nat) : forall bytes,
  length bytes = (2 * n)%nat ->
  Forall is_byte bytes ->
  write_samples (decode_pairs bytes) = bytes
  /\ length (decode_pairs bytes) = n.
Proof.
  induction n as [|n IH]; intros bytes Hlen Hb.
  - destruct bytes; [auto | discriminate].
  - destruct bytes as [|b0 [|b1 rest]]; try (cbn in Hlen; lia).
    inversion Hb as [|? ? H0 Hb']; subst.
    inversion Hb' as [|? ? H1 Hr]; subst.
    destruct (IH rest ltac:(cbn in Hlen; lia) Hr) as [Hw Hl].
    cbn [decode_pairs length].
    change (write_samples (int16 (Uint16 b0 b1) :: decode_pairs rest))
      with (le16 (int16 (Uint16 b0 b1)) ++ write_samples (decode_pairs rest)).
    rewrite le16_decode by assumption. rewrite Hw, Hl. auto.
Qed.

Lemma decode_pairs_int16 bytes : Forall is_int16 (decode_pairs bytes).
Proof.
  assert (H : forall n bytes, (length bytes <= n)%nat ->
                              Forall is_int16 (decode_pairs bytes)).
  { induction n as [|n IH]; intros [|b0 [|b1 rest]] Hl; cbn;
      try constructor; try (cbn in Hl; lia).
    - apply int16_range.
    - apply IH. cbn in Hl. lia. }
  apply (H (length bytes)). lia.
Qed.

(** X12. The capture decoding and the WAV encoding are inverse to each other:
    the samples [recordLoop] makes of a read of an even number of bytes are
    16-bit values, half as many as the bytes, and the encoder writes them
    back as the very bytes that were read. *)
Theorem capture_then_encode (bytes : list Z) :
  Forall is_byte bytes ->
  Nat.even (length bytes) = true ->
  write_samples (decode_pairs bytes) = bytes
  /\ Forall is_int16 (decode_pairs bytes)
  /\ (2 * length (decode_pairs bytes))%nat = length bytes.
Proof.
  intros Hb He. apply Nat.even_spec in He as [n Hn].
  destruct (decode_pairs_even n bytes Hn Hb) as [Hw Hl].
  split; [exact Hw|]. split; [apply decode_pairs_int16 | lia].
Qed.

Lemma capture_then_encode_witness :
  write_samples (decode_pairs sample_bytes) = sample_bytes
  /\ Forall is_int16 (decode_pairs sample_bytes)
  /\ (2 * length (decode_pairs sample_bytes))%nat = length sample_bytes.
Proof.
  apply (capture_then_encode sample_bytes).
  - repeat constructor; unfold is_byte; lia.
  - reflexivity.
Defined.

(** ** The segmentation loop, continued *)

(** X17. A capture that ends crashes the session: when the channel is closed
    and drained and the context is not done, the iteration receives the
    zero-value frame and panics in [isSilent]; the loop neither idles nor
    returns, and no later iteration takes place. *)
Theorem capture_end_crashes_session (t : tick) (s : session)
    (ts : list tick) :
  ctxDone t = false ->
  queue (fold_left apply_op (produced t) (audioChan s)) = [] ->
  closed (fold_left apply_op (produced t) (audioChan s)) = true ->
  st (step t s) = Panicked DivideByZero
  /\ events (step t s) = []
  /\ run_loop (t :: ts) s = step t s.
Proof.
  intros Hd Hq Hc.
  pose proof (step_closed_and_drained t s Hd Hq Hc) as Hst.
  split; [exact Hst|]. split.
  - unfold step, readNextChunk. rewrite Hd, Hq, Hc. reflexivity.
  - cbn [run_loop]. now rewrite Hst.
Qed.

Lemma capture_end_crashes_session_witness :
  st (step {| produced := [Close]; ctxDone := false; now := second;
              be := reply "x" |} start_session)
  = Panicked DivideByZero.
Proof.
  apply (capture_end_crashes_session
           {| produced := [Close]; ctxDone := false; now := second;
              be := reply "x" |} start_session []).
  - reflexivity.
  - reflexivity.
  - reflexivity.
Defined.










Lemma printed_final_print_lines lines :
  printed_final (map EvPrintLine lines) = [].
Proof. induction lines as [|l lines IH]; simpl; auto. Qed.

Lemma step_transcript t s :
  transcriptLines (vars (step t s))
  = transcriptLines s ++ typed (events (step t s))
      ++ printed_final (events (step t s))
  /\ (st (step t s) = Looping -> printed_final (events (step t s)) = []).
Proof.
  step_cases t s; cbn [typed printed_final flat_map app];
    try (fold (typed (map EvPrintLine (transcriptLines s ++ [text]))));
    try (fold (printed_final (map EvPrintLine (transcriptLines s ++ [text]))));
    try (fold (typed (map EvPrintLine (transcriptLines s))));
    try (fold (printed_final (map EvPrintLine (transcriptLines s))));
    rewrite ?typed_print_lines, ?printed_final_print_lines, ?app_nil_r;
    split; auto; discriminate.
Qed.

(** X15. The transcript is what was typed, followed by what the final flush
    printed: at every point of a session the lines of the transcript are
    the lines it started with, then the texts typed by the flushes of the
    loop, in order, then the text of the final flush if there was one; as
    long as the session is running, the transcript is exactly what was
    typed. *)
Theorem transcript_is_typed_then_final (ts : list tick) (s : session) :
  transcriptLines (vars (run_loop ts s))
  = transcriptLines s ++ typed (events (run_loop ts s))
      ++ printed_final (events (run_loop ts s))
  /\ (st (run_loop ts s) = Looping ->
      printed_final (events (run_loop ts s)) = []).
Proof.
  revert s. induction ts as [|t ts IH]; intros s.
  - cbn. rewrite app_nil_r. auto.
  - cbn [run_loop]. destruct (step_transcript t s) as [Hl Hf].
    destruct (st (step t s)) eqn:Est.
    + destruct (IH (vars (step t s))) as [Hl' Hf'].
      cbn [st vars events]. unfold typed, printed_final in *.
      rewrite !flat_map_app. rewrite (Hf eq_refl) in *.
      rewrite Hl', Hl. cbn [app]. rewrite app_nil_r, <- !app_assoc.
      split; [reflexivity | exact Hf'].
    + split; [exact Hl|]. rewrite Est. discriminate.
    + split; [exact Hl|]. rewrite Est. discriminate.
Qed.

Lemma transcript_is_typed_then_final_witness :
  printed_final
    (events (run_loop [frame_tick (quiet_frame (2 * second))
                         (2 * second + 400 * millisecond) (reply "two")]
               mid_phrase)) = [].
Proof.
  apply (transcript_is_typed_then_final
           [frame_tick (quiet_frame (2 * second))
              (2 * second + 400 * millisecond) (reply "two")] mid_phrase).
  reflexivity.
Defined.

(** X16. Idling: while the channel is open and empty and the context is not
    done, every iteration sleeps 50 ms and leaves the session as it was. *)
Theorem idle_iterations (ts : list tick) (s : session) :
  Forall quiet_tick ts ->
  queue (audioChan s) = [] ->
  closed (audioChan s) = false ->
  run_loop ts s
  = {| st := Looping; vars := s;
       events := repeat (EvSleep (50 * millisecond)) (length ts) |}.
Proof.
  intros Hts Hq Hc. induction Hts as [|t ts [Hd Hp] Hts IH]; [reflexivity|].
  assert (Hstep : step t s
                  = {| st := Looping; vars := s;
                       events := [EvSleep (50 * millisecond)] |}).
  { unfold step. rewrite Hd, Hp. destruct s as [pb lines start [q cl]].
    cbn in Hq, Hc. subst q cl. reflexivity. }
  cbn [run_loop]. rewrite Hstep. cbn [st vars events].
  rewrite IH. reflexivity.
Qed.

Lemma idle_iterations_witness :
  run_loop [{| produced := []; ctxDone := false; now := second;
               be := unreachable |};
            {| produced := []; ctxDone := false; now := 2 * second;
               be := unreachable |}] start_session
  = {| st := Looping; vars := start_session;
       events := [EvSleep (50 * millisecond); EvSleep (50 * millisecond)] |}.
Proof.
  apply (idle_iterations
           [{| produced := []; ctxDone := false; now := second;
               be := unreachable |};
            {| produced := []; ctxDone := false; now := 2 * second;
               be := unreachable |}] start_session).
  - repeat constructor.
  - reflexivity.
  - reflexivity.
Defined.

(** ** The overlapping splitter, continued *)

Lemma chunk_loop_returns (W Ov : Z) (be : nat -> backend) (samples : list Z)
    (fuel : nat) : forall (k : nat) (start : Z) (acc : gostring),
  0 <= Ov < W ->
  Z.of_nat (length samples) + W < 2 ^ 63 ->
  0 <= start ->
  (Z.to_nat (Z.of_nat (length samples) - start) < fuel)%nat ->
  exists ws r, chunk_loop fuel W Ov be samples k start acc = Some (ws, r).
Proof.
  induction fuel as [|fuel IH]; intros k start acc HO Hfit Hs Hfuel; [lia|].
  cbn [chunk_loop].
  destruct (Z.ltb_spec start (Z.of_nat (length samples))) as [Hlt|Hge];
    [|eauto].
  destruct (transcribeChunk _ _) as [text|e]; [|eauto].
  rewrite (int64_id (W - Ov)) by (unfold is_int64; lia).
  rewrite (int64_id (start + (W - Ov))) by (unfold is_int64; lia).
  destruct (IH (S k) (start + (W - Ov)) (acc ++ text ++ [space]) HO Hfit
              ltac:(lia) ltac:(lia)) as [ws [r Hr]].
  rewrite Hr. eauto.
Qed.

(** X18. The splitter always returns: for every buffer, every window larger than
    the overlap and every behaviour of the backend, the loop ends within the
    iterations the length of the buffer allows. *)
Theorem transcribeInChunks_returns (W Ov : Z) (be : nat -> backend)
    (samples : list Z) :
  0 <= Ov < W ->
  Z.of_nat (length samples) + W < 2 ^ 63 ->
  exists ws r, transcribeInChunksWith W Ov be samples = Some (ws, r).
Proof.
  intros HO Hfit. unfold transcribeInChunksWith.
  destruct (_ <=? _); [eauto|].
  apply chunk_loop_returns; try assumption; lia.
Qed.

Lemma transcribeInChunks_returns_witness :
  exists ws r,
    transcribeInChunks (fun _ => unreachable) (repeat 7 (Z.to_nat 20000))
    = Some (ws, r).
Proof.
  apply (transcribeInChunks_returns samplesPerChunk overlapSamples
           (fun _ => unreachable) (repeat 7 (Z.to_nat 20000))).
  - vm_compute. split; [discriminate | reflexivity].
  - rewrite repeat_length. vm_compute. reflexivity.
Defined.

Lemma chunk_loop_fails_at (W Ov : Z) (be : nat -> backend) (samples : list Z)
    (texts : nat -> gostring) (k : nat) (e : error) :
  let L := Z.of_nat (length samples) in
  0 <= Ov < W -> L + W < 2 ^ 63 -> 0 < L ->
  (k < Z.to_nat (window_count W Ov L))%nat ->
  (forall i, (i < k)%nat ->
     transcribeChunk (be i)
       (slice samples (fst (window W Ov L i)) (snd (window W Ov L i)))
     = Ok (texts i)) ->
  transcribeChunk (be k)
    (slice samples (fst (window W Ov L k)) (snd (window W Ov L k)))
  = Fail e ->
  forall (m i fuel : nat) (acc : gostring),
    (i + m = k)%nat -> (m < fuel)%nat ->
    chunk_loop fuel W Ov be samples i (Z.of_nat i * (W - Ov)) acc
    = Some (map (window W Ov L) (seq i (S m)),
            Fail (ErrorfAt "transcribing chunk at"
                    (fst (window W Ov L k)) e)).
Proof.
  intros L HO Hfit HL Hk Hok Hfail.
  pose proof (window_count_bounds W Ov samples HO HL) as Hn. fold L in Hn.
  assert (Hstart : forall i, (i <= k)%nat ->
                     0 <= Z.of_nat i * (W - Ov) < L).
  { intros i Hi. split; [nia|].
    assert (Z.of_nat i <= Z.of_nat (Z.to_nat (window_count W Ov L)) - 1)
      by lia. nia. }
  induction m as [|m IH]; intros i fuel acc Hi Hfuel.
  - destruct fuel as [|fuel]; [lia|]. cbn [chunk_loop seq map].
    fold L. replace i with k in * by lia.
    pose proof (Hstart k (le_n _)) as Hs.
    set (start := Z.of_nat k * (W - Ov)) in *.
    destruct (Z.ltb_spec start L) as [_|Hge]; [|lia].
    rewrite (int64_id (start + W)) by (unfold is_int64; lia).
    replace (if start + W >? L then L else start + W)
      with (Z.min (start + W) L)
      by (destruct (Z.gtb_spec (start + W) L); lia).
    change (start, Z.min (start + W) L) with (window W Ov L k).
    cbn [fst snd window] in Hfail. fold start in Hfail.
    rewrite Hfail. reflexivity.
  - destruct fuel as [|fuel]; [lia|]. cbn [chunk_loop seq map].
    fold L.
    pose proof (Hstart i ltac:(lia)) as Hs.
    set (start := Z.of_nat i * (W - Ov)) in *.
    destruct (Z.ltb_spec start L) as [_|Hge]; [|lia].
    rewrite (int64_id (start + W)) by (unfold is_int64; lia).
    replace (if start + W >? L then L else start + W)
      with (Z.min (start + W) L)
      by (destruct (Z.gtb_spec (start + W) L); lia).
    change (start, Z.min (start + W) L) with (window W Ov L i).
    assert (Hreq := Hok i ltac:(lia)).
    cbn [fst snd window] in Hreq. fold start in Hreq.
    rewrite Hreq.
    rewrite (int64_id (W - Ov)) by (unfold is_int64; lia).
    rewrite (int64_id (start + (W - Ov))) by (unfold is_int64; lia).
    replace (start + (W - Ov)) with (Z.of_nat (S i) * (W - Ov))
      by (unfold start; lia).
    rewrite (IH (S i) fuel) by lia. reflexivity.
Qed.

(** X19. The first request that fails ends the splitter: the windows before it
    were submitted and their texts are dropped, no later window is
    submitted, and the error returned carries the start of the failing
    window. *)
Theorem splitter_first_failure (W Ov : Z) (be : nat -> backend)
    (samples : list Z) (texts : nat -> gostring) (k : nat) (e : error) :
  let L := Z.of_nat (length samples) in
  0 <= Ov < W ->
  W < L ->
  L + W < 2 ^ 63 ->
  (k < Z.to_nat (window_count W Ov L))%nat ->
  (forall i, (i < k)%nat ->
     transcribeChunk (be i)
       (slice samples (fst (window W Ov L i)) (snd (window W Ov L i)))
     = Ok (texts i)) ->
  transcribeChunk (be k)
    (slice samples (fst (window W Ov L k)) (snd (window W Ov L k)))
  = Fail e ->
  transcribeInChunksWith W Ov be samples
  = Some (map (window W Ov L) (seq 0 (S k)),
          Fail (ErrorfAt "transcribing chunk at"
                  (Z.of_nat k * (W - Ov)) e)).
Proof.
  intros L HO HW Hfit Hk Hok Hfail.
  assert (HL : 0 < L) by lia.
  pose proof (window_count_bounds W Ov samples HO HL) as Hn. fold L in Hn.
  unfold transcribeInChunksWith. fold L.
  destruct (Z.leb_spec L W) as [Hle|_]; [lia|].
  apply (chunk_loop_fails_at W Ov be samples texts k e HO Hfit HL Hk Hok
           Hfail k 0%nat (S (length samples)) []).
  - reflexivity.
  - assert (Z.of_nat k < L) by nia. fold L in H. lia.
Qed.

Lemma splitter_first_failure_witness :
  transcribeInChunks
    (fun i => if Nat.eqb i 1 then unreachable else reply "a")
    (repeat 0 (Z.to_nat 16001))
  = Some ([(0, 16000); (8000, 16001)],
          Fail (ErrorfAt "transcribing chunk at" 8000
                  (Errorf "executing request"
                     (ClientError "connection refused")))).
Proof.
  apply (splitter_first_failure samplesPerChunk overlapSamples
           (fun i => if Nat.eqb i 1 then unreachable else reply "a")
           (repeat 0 (Z.to_nat 16001)) (fun _ => runes_of "a") 1
           (Errorf "executing request" (ClientError "connection refused"))).
  - vm_compute. split; [discriminate | reflexivity].
  - vm_compute. reflexivity.
  - vm_compute. reflexivity.
  - vm_compute. lia.
  - intros i Hi. assert (i = 0%nat) by lia. subst i. reflexivity.
  - reflexivity.
Defined.

(** X20. The windows leave no sample out: when every request succeeds, every
    position of the buffer lies inside a window that was submitted. *)
Theorem splitter_covers_buffer (W Ov : Z) (be : nat -> backend)
    (samples : list Z) (texts : nat -> gostring) (i : Z) :
  let L := Z.of_nat (length samples) in
  0 <= Ov < W ->
  W < L ->
  L + W < 2 ^ 63 ->
  (forall k, (k < Z.to_nat (window_count W Ov L))%nat ->
     transcribeChunk (be k)
       (slice samples (fst (window W Ov L k)) (snd (window W Ov L k)))
     = Ok (texts k)) ->
  0 <= i < L ->
  exists ws r w,
    transcribeInChunksWith W Ov be samples = Some (ws, r)
    /\ In w ws /\ fst w <= i < snd w.
Proof.
  intros L HO HW Hfit Hok Hi.
  assert (HL : 0 < L) by lia.
  pose proof (window_count_bounds W Ov samples HO HL) as Hn. fold L in Hn.
  set (n := Z.to_nat (window_count W Ov L)) in *.
  set (k := Z.to_nat (i / (W - Ov))).
  assert (Hk : Z.of_nat k = i / (W - Ov)).
  { unfold k. apply Z2Nat.id. apply Z.div_pos; lia. }
  pose proof (Z.div_mod i (W - Ov) ltac:(lia)) as Hdm.
  pose proof (Z.mod_pos_bound i (W - Ov) ltac:(lia)) as Hm.
  assert (Hkn : (k < n)%nat).
  { assert (Z.of_nat k < Z.of_nat n); [|lia].
    rewrite Hk. nia. }
  exists (map (window W Ov L) (seq 0 n)).
  eexists. exists (window W Ov L k).
  split; [|split].
  - unfold transcribeInChunksWith. fold L.
    destruct (Z.leb_spec L W) as [Hle|_]; [lia|].
    assert (Hfuel : (n < S (length samples))%nat).
    { assert (Z.of_nat n - 1 < L) by nia. fold L in H. lia. }
    exact (chunk_loop_from W Ov be samples texts HO Hfit HL Hok n 0%nat
             (S (length samples)) [] eq_refl Hfuel).
  - apply in_map, in_seq. lia.
  - unfold window. cbn [fst snd]. rewrite Hk. nia.
Qed.

Lemma splitter_covers_buffer_witness :
  exists ws r w,
    transcribeInChunks (fun _ => reply "a") (repeat 0 (Z.to_nat 16001))
      = Some (ws, r)
    /\ In w ws /\ fst w <= 16000 < snd w.
Proof.
  apply (splitter_covers_buffer samplesPerChunk overlapSamples
           (fun _ => reply "a") (repeat 0 (Z.to_nat 16001))
           (fun _ => runes_of "a") 16000).
  - vm_compute. split; [discriminate | reflexivity].
  - vm_compute. reflexivity.
  - vm_compute. reflexivity.
  - intros k _. reflexivity.
  - vm_compute. split; [discriminate | reflexivity].
Defined.

(** ** The WAV encoder, continued *)

Lemma writeWavToBuffer_length (buffer samples : list Z) (sr ch : Z) :
  length (writeWavToBuffer buffer samples sr ch)
  = (length buffer + 44 + 2 * length samples)%nat.
Proof.
  rewrite (writeWavToBuffer_layout buffer).
  rewrite !length_app, wav_header_length, write_samples_length. lia.
Qed.

(** X21. The encoder appends: what the buffer held stays in front of the new
    file, which takes 44 bytes and two bytes per sample. It is the caller,
    [transcribeChunk], that empties the shared buffer first. *)
Theorem writeWavToBuffer_appends (buffer samples : list Z) (sr ch : Z) :
  writeWavToBuffer buffer samples sr ch
    = buffer ++ writeWavToBuffer [] samples sr ch
  /\ length (writeWavToBuffer buffer samples sr ch)
     = (length buffer + 44 + 2 * length samples)%nat.
Proof.
  split; [|apply writeWavToBuffer_length].
  rewrite (writeWavToBuffer_layout buffer), (writeWavToBuffer_layout []).
  reflexivity.
Qed.

(** X22. The sizes the header announces agree with the file: the RIFF size is
    the length of the file less the 8 bytes of the RIFF tag and size, the
    block alignment is two bytes per channel, and the byte rate is the
    sample rate times the block alignment. *)
Theorem wav_header_sizes (samples : list Z) (sr ch : Z) :
  Forall is_int16 samples ->
  Z.of_nat (length samples) < 2 ^ 31 - 18 ->
  0 <= sr < 2 ^ 32 -> 0 <= ch < 2 ^ 15 -> sr * ch * 2 < 2 ^ 32 ->
  exists w,
    parse_wav (writeWavToBuffer [] samples sr ch) = Some w
    /\ riffSize w
       = Z.of_nat (length (writeWavToBuffer [] samples sr ch)) - 8
    /\ fmtSize w = 16
    /\ numChannels w = ch
    /\ wavBlockAlign w = 2 * ch
    /\ wavByteRate w = wavSampleRate w * wavBlockAlign w.
Proof.
  intros Hs Hn Hsr Hch Hrate.
  rewrite (writeWavToBuffer_length [] samples sr ch). rewrite parse_wav_encoded. cbv zeta.
  assert (Hd : Z.of_nat (length (write_samples samples))
               = 2 * Z.of_nat (length samples)).
  { rewrite write_samples_length, Nat2Z.inj_mul. reflexivity. }
  rewrite Hd.
  rewrite (uint32_id (2 * Z.of_nat (length samples))) by lia.
  rewrite Z.leb_refl.
  rewrite <- Hd, Nat2Z.id, firstn_all.
  rewrite read_write_samples by exact Hs.
  eexists. split; [reflexivity|]. cbn [riffSize fmtSize numChannels
    wavBlockAlign wavByteRate wavSampleRate].
  change (bitsPerSample / 8) with 2.
  rewrite (int64_id (sr * ch)) by (unfold is_int64; nia).
  rewrite (int64_id (sr * ch * 2)) by (unfold is_int64; nia).
  rewrite (int64_id (ch * 2)) by (unfold is_int64; lia).
  rewrite (uint32_id (sr * ch * 2)) by nia.
  rewrite (uint32_id sr) by lia.
  rewrite (uint16_id ch) by lia.
  rewrite (uint16_id (ch * 2)) by lia.
  rewrite Hd. rewrite (uint32_id (36 + _)) by lia.
  repeat split; try lia.
  rewrite !Nat2Z.inj_add, Nat2Z.inj_mul. cbn [length]. lia.
Qed.

Lemma wav_header_sizes_witness :
  exists w,
    parse_wav (writeWavToBuffer [] [5; -5; 7] sampleRate channels) = Some w
    /\ riffSize w
       = Z.of_nat (length (writeWavToBuffer [] [5; -5; 7] sampleRate channels))
         - 8
    /\ fmtSize w = 16
    /\ numChannels w = channels
    /\ wavBlockAlign w = 2 * channels
    /\ wavByteRate w = wavSampleRate w * wavBlockAlign w.
Proof.
  apply (wav_header_sizes [5; -5; 7] sampleRate channels).
  - repeat constructor; unfold is_int16; lia.
  - cbn. lia.
  - unfold sampleRate. lia.
  - unfold channels. lia.
  - unfold sampleRate, channels. lia.
Defined.

(** ** The hot key *)

Lemma div2_succ_parity p :
  (Nat.even p = true -> Nat.div2 (S p) = Nat.div2 p)
  /\ (Nat.even p = false -> Nat.div2 (S p) = S (Nat.div2 p)).
Proof.
  destruct (Nat.Even_or_Odd p) as [[k ->]|[k ->]].
  - split; intros H.
    + now rewrite Nat.div2_succ_double, Nat.div2_double.
    + rewrite Nat.even_mul in H. discriminate H.
  - split; intros H.
    + rewrite Nat.add_1_r, Nat.even_succ, Nat.odd_mul in H. discriminate H.
    + rewrite Nat.add_1_r. rewrite Nat.div2_succ_double.
      replace (S (S (2 * k))) with (2 * S k)%nat by lia.
      now rewrite Nat.div2_double.
Qed.

Lemma event_loop_toggles (evs : list xevent) : forall p u,
  ui_inv p u ->
  session_actions (snd (event_loop u evs))
    = map toggle (seq p (presses evs))
  /\ ui_inv (p + presses evs) (fst (event_loop u evs)).
Proof.
  induction evs as [|ev evs IH]; intros p u Hu.
  - cbn. rewrite Nat.add_0_r. auto.
  - assert (Hskip : is_hotkey ev = false -> on_event u ev = (u, []) ->
              session_actions (snd (event_loop u (ev :: evs)))
                = map toggle (seq p (presses (ev :: evs)))
              /\ ui_inv (p + presses (ev :: evs))
                   (fst (event_loop u (ev :: evs)))).
    { intros Hh Hon. cbn [event_loop]. rewrite Hon.
      unfold presses. cbn [filter]. rewrite Hh. fold (presses evs).
      destruct (event_loop u evs) as [u'' acts'] eqn:E.
      specialize (IH p u Hu). rewrite E in IH. exact IH. }
    destruct ev as [|Detail|]; try (apply Hskip; reflexivity).
    destruct (Detail =? hotkey) eqn:Hk;
      [|apply Hskip; cbn; rewrite Hk; reflexivity].
    clear Hskip. destruct Hu as [Ha [Hc Hcan]].
    destruct (div2_succ_parity p) as [He Ho].
    unfold presses. cbn [filter is_hotkey]. rewrite Hk.
    cbn [length seq map]. fold (presses evs).
    cbn [event_loop on_event]. rewrite Hk, Ha.
    destruct (Nat.even p) eqn:Hp; cbn [negb].
    + set (u' := {| isActive := true; cancel := Some (contexts u);
                    contexts := S (contexts u) |}).
      assert (Hu' : ui_inv (S p) u').
      { unfold ui_inv, u'. cbn [isActive contexts cancel].
        rewrite Nat.even_succ, <- Nat.negb_even, Hp.
        split; [reflexivity|]. split.
        - rewrite Hc, (He eq_refl). reflexivity.
        - intros _. now rewrite Hc. }
      destruct (IH (S p) u' Hu') as [H1 H2].
      destruct (event_loop u' evs) as [u'' acts']. cbn [fst snd] in *.
      split.
      * cbn [app session_actions filter]. fold (session_actions acts').
        rewrite H1. unfold toggle at 2. rewrite Hp, Hc, (He eq_refl).
        reflexivity.
      * replace (p + S (presses evs))%nat with (S p + presses evs)%nat by lia.
        exact H2.
    + rewrite (Hcan eq_refl).
      set (u' := {| isActive := false; cancel := Some (Nat.div2 p);
                    contexts := contexts u |}).
      assert (Hu' : ui_inv (S p) u').
      { unfold ui_inv, u'. cbn [isActive contexts cancel].
        rewrite Nat.even_succ, <- Nat.negb_even, Hp.
        split; [reflexivity|]. split.
        - rewrite Hc, (Ho eq_refl). reflexivity.
        - discriminate. }
      destruct (IH (S p) u' Hu') as [H1 H2].
      destruct (event_loop u' evs) as [u'' acts']. cbn [fst snd] in *.
      split.
      * cbn [app session_actions filter]. fold (session_actions acts').
        rewrite H1. unfold toggle at 2. rewrite Hp. reflexivity.
      * replace (p + S (presses evs))%nat with (S p + presses evs)%nat by lia.
        exact H2.
Qed.

(** X23. The hot key is a toggle that never looks at the session: whatever other
    events and errors come in between, the presses alternately start a
    session and cancel the one started by the press before, and the loop is
    active exactly after an odd number of presses. *)
Theorem hotkey_toggles (evs : list xevent) :
  session_actions (snd (event_loop ui_start evs))
    = map toggle (seq 0 (presses evs))
  /\ isActive (fst (event_loop ui_start evs)) = Nat.odd (presses evs).
Proof.
  assert (H0 : ui_inv 0 ui_start).
  { unfold ui_inv, ui_start. cbn. repeat split. discriminate. }
  destruct (event_loop_toggles evs 0 ui_start H0) as [H1 [H2 _]].
  split; [exact H1|]. rewrite H2. cbn [Nat.add].
  now rewrite Nat.negb_even.
Qed.

(** ** Frame classification and the sentinel, as the code has them *)

(** X24. On a non-empty frame of fewer than 2^48 samples, none of them -32768,
    [isSilent] answers true exactly when the mean absolute amplitude is
    strictly below the threshold: the truncation of the average does not
    change the comparison, and a mean equal to the threshold is Speech. *)
Theorem silent_iff_mean_below_threshold (data : list Z) (threshold : Z) :
  data <> [] ->
  Forall symmetric_sample data ->
  Z.of_nat (length data) < 2 ^ 48 ->
  is_int64 threshold ->
  isSilent data threshold = Val true <-> mean_abs_lt data threshold.
Proof. exact (isSilent_mean data threshold). Qed.

Lemma silent_iff_mean_below_threshold_witness :
  isSilent [79; -80; 80] energyThreshold = Val true
  <-> mean_abs_lt [79; -80; 80] energyThreshold.
Proof.
  apply (silent_iff_mean_below_threshold [79; -80; 80] energyThreshold).
  - discriminate.
  - repeat constructor; unfold symmetric_sample; lia.
  - cbn. lia.
  - unfold is_int64, energyThreshold. lia.
Defined.

(** X25. On every non-empty frame [isSilent] returns a classification: the
    division by the length of the frame is defined. *)
Theorem nonempty_frame_is_classified (data : list Z) (threshold : Z) :
  data <> [] ->
  Z.of_nat (length data) < 2 ^ 63 ->
  exists silent, isSilent data threshold = Val silent.
Proof. exact (isSilent_nonempty_returns data threshold). Qed.

Lemma nonempty_frame_is_classified_witness :
  exists silent, isSilent [- 32768] energyThreshold = Val silent.
Proof.
  apply (nonempty_frame_is_classified [- 32768] energyThreshold).
  - discriminate.
  - cbn. lia.
Defined.

(** X26. Whatever white space the backend puts around the sentinel, the
    transcription is the empty text. *)
Theorem padded_sentinel_is_blank (b : backend) (samples : list Z)
    (status : string) (body : list Z) (l r : gostring) :
  b (writeWavToBuffer [] samples sampleRate channels)
    = Response StatusOK status body (Json (l ++ BLANK_AUDIO ++ r)) ->
  forallb isSpace l = true ->
  forallb isSpace r = true ->
  transcribeChunk b samples = Ok [].
Proof.
  intros Hb Hl Hr. unfold transcribeChunk. rewrite Hb.
  change (negb (StatusOK =? StatusOK)) with false. cbv iota.
  rewrite (TrimSpace_padded_sentinel l r Hl Hr). reflexivity.
Qed.

Lemma padded_sentinel_is_blank_witness :
  transcribeChunk
    (fun _ => Response 200 "200 OK" []
                (Json ([32; 10] ++ BLANK_AUDIO ++ [13; 10])))
    [3; 4] = Ok [].
Proof.
  apply (padded_sentinel_is_blank _ [3; 4] "200 OK" [] [32; 10] [13; 10]).
  - reflexivity.
  - reflexivity.
  - reflexivity.
Defined.

(** X27. The session never asks for the transcription of nothing: every request
    of a session, in the loop or at cancellation, carries at least one
    sample. *)
Theorem run_never_transcribes_empty (ts : list tick) (s : session)
    (b : list Z) :
  In (EvTranscribe b) (events (run_loop ts s)) -> b <> [].
Proof.
  revert s. induction ts as [|t ts IH]; intros s; [intros []|].
  cbn [run_loop].
  assert (Hstep : In (EvTranscribe b) (events (step t s)) -> b <> []).
  { intros Hin. destruct (step_flush_buffer t s b Hin) as [-> Hne].
    exact Hne. }
  destruct (st (step t s)); [|exact Hstep|exact Hstep].
  cbn [events]. intros Hin. apply in_app_or in Hin as [Hin|Hin].
  - exact (Hstep Hin).
  - exact (IH _ Hin).
Qed.

Lemma run_never_transcribes_empty_witness :
  [1000; -1000] <> [].
Proof.
  apply (run_never_transcribes_empty
           [frame_tick (speech_frame second) second (reply "hello");
            cancel_tick (2 * second) (reply "hello")]
           start_session [1000; -1000]).
  vm_compute. left. reflexivity.
Defined.
